(** * OkeyMate backend: the meld enumerator, the set-packing program and the
      [/solve] handler, embedded from [src/okey_ilp.py] and [src/api.py]. *)

From Stdlib Require Import ZArith DecimalString.
From stdpp Require Import base numbers option list strings gmap sorting.

Local Open Scope Z_scope.

(** ** Python helpers *)

(** [range(a, b)] over the integers. *)
Definition range (a b : Z) : list Z := seqZ a (b - a).

(** [len(l)] as a Python integer. *)
Definition len {A} (l : list A) : Z := Z.of_nat (length l).

(** [sum(l)] for a list of integers. *)
Definition sum (l : list Z) : Z := foldr Z.add 0 l.

(** [enumerate(l)]. *)
Definition enumerate {A} (l : list A) : list (nat * A) := imap pair l.

(** [sorted(l)] on indices. *)
Definition sorted (l : list nat) : list nat := merge_sort Nat.le l.

(** [itertools.combinations(l, r)]: the length-[r] subsequences of [l], in
    lexicographic order of positions. *)
Fixpoint combinations {A} (l : list A) (r : nat) : list (list A) :=
  match l, r with
  | _, O => [[]]
  | [], S _ => []
  | x :: t, S r' => (cons x <$> combinations t r') ++ combinations t r
  end.

(** [str(n)] for an integer and for [Optional] values inside an f-string. *)
Definition str_int (n : Z) : string := NilZero.string_of_int (Z.to_int n).
Definition str_opt_int (n : option Z) : string := from_option str_int "None"%string n.
Definition str_opt_str (s : option string) : string := from_option id "None"%string s.

(** ** okey_ilp.py: Piece *)

Inductive PieceType := okey | fake_okey | piece.

#[global] Instance PieceType_eq_dec : EqDecision PieceType.
Proof. solve_decision. Defined.

(** [color] and [number] are [Optional] in the source: [None] is Python's
    [None]. *)
Record Piece := mkPiece {
  type : PieceType;
  color : option string;
  number : option Z
}.

#[global] Instance Piece_eq_dec : EqDecision Piece.
Proof. solve_decision. Defined.

(** [Piece.__init__(color, number, okey_color, okey_number)]. *)
Definition Piece_init (color : string) (number : option Z)
    (okey_color : option string) (okey_number : option Z) : Piece :=
  let type :=
    if decide (color = "okey"%string) then okey
    else if decide (color = "fake_okey"%string) then fake_okey
    else piece in
  match type with
  | okey => mkPiece type okey_color okey_number
  | fake_okey =>
      mkPiece type okey_color
        (match okey_number with
         | Some n => Some (n `mod` 13 + 1)
         | None => None
         end)
  | piece => mkPiece type (Some color) number
  end.

(** [Piece.__str__]. *)
Definition Piece_str (p : Piece) : string :=
  match type p with
  | okey => "JOKER"
  | fake_okey =>
      "FAKE_OKEY(" +:+ str_opt_str (color p) +:+ " " +:+ str_opt_int (number p) +:+ ")"
  | piece => str_opt_str (color p) +:+ " " +:+ str_opt_int (number p)
  end%string.

(** ** okey_ilp.py: OkeyILPSolver *)

(** The dictionaries [{"color": ..., "number": ...}] of the input list. *)
Record PieceDict := mkPieceDict {
  d_color : string;
  d_number : option Z
}.

Record OkeyILPSolver := mkSolver {
  tiles : list Piece;
  joker_indices : list nat;
  non_joker_indices : list nat
}.

(** The two index comprehensions of [__init__]. *)
Definition index_jokers (ts : list Piece) : list nat :=
  (filter (λ it, type it.2 = okey) (enumerate ts)).*1.

Definition index_non_jokers (ts : list Piece) : list nat :=
  (filter (λ it, type it.2 ≠ okey) (enumerate ts)).*1.

(** The object state once the tile list is built. *)
Definition solver_of_tiles (ts : list Piece) : OkeyILPSolver :=
  mkSolver ts (index_jokers ts) (index_non_jokers ts).

(** [OkeyILPSolver.__init__(pieces, okey_color, okey_number)]. *)
Definition OkeyILPSolver_init (pieces : list PieceDict)
    (okey_color : option string) (okey_number : option Z) : OkeyILPSolver :=
  solver_of_tiles
    ((λ p, Piece_init (d_color p) (d_number p) okey_color okey_number) <$> pieces).

(** A candidate meld: the tile indices and the weight. *)
Definition Meld : Type := list nat * Z.

(** [real_idxs] of the Set pass: [self.tiles[i].number == num] over the
    non-joker indices.  The indices come from [enumerate(self.tiles)], so the
    subscript never leaves the list (lemma [index_non_jokers_spec]). *)
Definition set_real_idxs (self : OkeyILPSolver) (num : Z) : list nat :=
  filter (λ i, number <$> tiles self !! i = Some (Some num)) (non_joker_indices self).

(** The Set pass of [_enumerate_melds] for one rank. *)
Definition set_melds_of_num (self : OkeyILPSolver) (num : Z) : list Meld :=
  let W := len (joker_indices self) in
  let real_idxs := set_real_idxs self num in
  let max_size := Z.min 4 (len real_idxs + W) in
  size ← range 3 (max_size + 1);
  r ← range (Z.max 1 (size - W)) (Z.min size (len real_idxs) + 1);
  let k := size - r in
  real_comb ← combinations real_idxs (Z.to_nat r);
  joker_comb ← combinations (joker_indices self) (Z.to_nat k);
  [(real_comb ++ joker_comb, num * size)].

Definition set_melds (self : OkeyILPSolver) : list Meld :=
  num ← range 1 14; set_melds_of_num self num.

(** [colors = set(t.color for t in self.tiles if t.type != 'okey')].  The
    iteration order of a Python set is unspecified; the colors are taken here
    in order of first occurrence.  No statement below depends on that order. *)
Definition colors (self : OkeyILPSolver) : list (option string) :=
  remove_dups (color <$> filter (λ t, type t ≠ okey) (tiles self)).

(** [num_to_idx]: a dict comprehension, so a later tile with the same number
    overwrites an earlier one. *)
Definition num_to_idx (self : OkeyILPSolver) (c : option string) : gmap (option Z) nat :=
  foldl (λ d it, if decide (type it.2 ≠ okey ∧ color it.2 = c)
                 then <[number it.2 := it.1]> d else d)
        ∅ (enumerate (tiles self)).

(** [real_idxs] of the Run pass for the window [start .. start+length-1]. *)
Definition run_real_idxs (self : OkeyILPSolver) (c : option string)
    (length start : Z) : list nat :=
  omap (λ n, num_to_idx self c !! Some n) (range start (start + length)).

(** The body of the two inner loops of the Run pass. *)
Definition run_window (self : OkeyILPSolver) (c : option string)
    (length start : Z) : list Meld :=
  let W := len (joker_indices self) in
  let run_nums := range start (start + length) in
  let real_idxs := run_real_idxs self c length start in
  let missing := length - len real_idxs in
  if decide (missing <= W ∧ len real_idxs >= 1) then
    joker_comb ← combinations (joker_indices self) (Z.to_nat missing);
    [(sorted (real_idxs ++ joker_comb), sum run_nums)]
  else [].

Definition run_melds_of_color (self : OkeyILPSolver) (c : option string) : list Meld :=
  length ← range 3 14;
  start ← range 1 (14 - length + 1);
  run_window self c length start.

Definition run_melds (self : OkeyILPSolver) : list Meld :=
  c ← colors self; run_melds_of_color self c.

(** [OkeyILPSolver._enumerate_melds]. *)
Definition _enumerate_melds (self : OkeyILPSolver) : list Meld :=
  set_melds self ++ run_melds self.

(** ** okey_ilp.py: the 0/1 program of [solve]

    [prob.solve(pulp.PULP_CBC_CMD(msg=False))] is an external call.  Its
    outcome is a parameter of the model: either the call raises, or it leaves
    a value for each variable [x_0 .. x_{len(melds)-1}], read back with
    [pulp.value]. *)

Inductive PyResult (A : Type) :=
  | Return (a : A)
  | Raise (msg : string).
Arguments Return {A} a.
Arguments Raise {A} msg.

(** The objective [lpSum(melds[i][1] * x[i] for i in range(len(melds)))] at
    an assignment [x]. *)
Definition lp_objective (melds : list Meld) (x : list Z) : Z :=
  sum (zip_with (λ m v, m.2 * v) melds x).

(** The left-hand side of the constraint [tile_{tile_idx}_once]:
    [lpSum(x[i] for i, (idxs, _) in enumerate(melds) if tile_idx in idxs)]. *)
Definition tile_once_lhs (melds : list Meld) (x : list Z) (tile_idx : nat) : Z :=
  sum (zip_with (λ m v, if decide (tile_idx ∈ m.1) then v else 0) melds x).

(** [x] gives each binary variable the value 0 or 1 and satisfies the
    constraint of every [tile_idx in range(len(self.tiles))]. *)
Definition lp_feasible (melds : list Meld) (ntiles : nat) (x : list Z) : Prop :=
  length x = length melds ∧
  Forall (λ v, v = 0 ∨ v = 1) x ∧
  Forall (λ tile_idx, tile_once_lhs melds x tile_idx <= 1) (seq 0 ntiles).

#[global] Instance lp_feasible_dec melds ntiles x : Decision (lp_feasible melds ntiles x).
Proof. unfold lp_feasible. apply _. Defined.

(** An exact optimizer returns a feasible assignment that maximises the
    objective ([pulp.LpMaximize]). *)
Definition lp_optimal (melds : list Meld) (ntiles : nat) (x : list Z) : Prop :=
  lp_feasible melds ntiles x ∧
  ∀ y, lp_feasible melds ntiles y → lp_objective melds y <= lp_objective melds x.

(** The candidates whose variable has the value 1, in candidate order. *)
Definition chosen (melds : list Meld) (x : list Z) : list Meld :=
  (filter (λ mv, mv.2 = 1) (zip melds x)).*1.

(** [[self.tiles[idx] for idx in idxs]]: a subscript outside the list raises
    [IndexError], here [None]. *)
Definition meld_pieces (self : OkeyILPSolver) (idxs : list nat) : option (list Piece) :=
  mapM (λ idx, tiles self !! idx) idxs.

(** The extraction loop of [solve], given the values [x] of the variables. *)
Definition extract (self : OkeyILPSolver) (x : list Z) : option (list (list Piece * Z)) :=
  mapM (λ m, ps ← meld_pieces self m.1; Some (ps, m.2))
       (chosen (_enumerate_melds self) x).

(** [OkeyILPSolver.solve], with the outcome of the optimizer call. *)
Definition solve (self : OkeyILPSolver) (cbc : PyResult (list Z))
    : PyResult (list (list Piece * Z)) :=
  match cbc with
  | Raise msg => Raise msg
  | Return x =>
      match extract self x with
      | Some solution => Return solution
      | None => Raise "list index out of range"
      end
  end.

(** ** api.py *)

Record PieceData := mkPieceData {
  pd_color : string;
  pd_number : option Z
}.

Record OkeyRequest := mkOkeyRequest {
  pieces : list PieceData;
  okey_color : string;
  okey_number : Z
}.

Record MeldResponse := mkMeldResponse {
  mr_pieces : list string;
  value : Z
}.

(** [execution_time] is a wall-clock measurement and is left out. *)
Record OkeyResponse := mkOkeyResponse {
  melds : list MeldResponse;
  total_score : Z;
  can_open : bool;
  number_of_triples : Z;
  number_of_sides : Z
}.

Record HTTPException := mkHTTPException {
  status_code : Z;
  detail : string
}.

(** The display token of one piece (the inner loop of the handler). *)
Definition piece_str (p : Piece) : string :=
  match type p with
  | okey => "JOKER"
  | _ => str_opt_str (color p) +:+ " " +:+ str_opt_int (number p)
  end%string.

(** The request turned into the solver object. *)
Definition request_solver (request : OkeyRequest) : OkeyILPSolver :=
  OkeyILPSolver_init
    ((λ p, mkPieceDict (pd_color p) (pd_number p)) <$> pieces request)
    (Some (okey_color request)) (Some (okey_number request)).

(** The accumulation [total_score += ilp_meld_weight] of the handler. *)
Definition score_of (solution : list (list Piece * Z)) : Z :=
  foldl (λ acc mw, acc + mw.2) 0 solution.

(** The response built from the solution list. *)
Definition build_response (optimal_melds_with_weights : list (list Piece * Z))
    : OkeyResponse :=
  let processed_melds :=
    (λ mw, mkMeldResponse (piece_str <$> mw.1) mw.2) <$> optimal_melds_with_weights in
  let total_score := score_of optimal_melds_with_weights in
  mkOkeyResponse processed_melds total_score
    (bool_decide (total_score >= 101)) (total_score `div` 3) (total_score `mod` 3).

(** [solve_okey_hand]: every exception of the body becomes an
    [HTTPException] with status 500 and the exception text as detail. *)
Definition solve_okey_hand (request : OkeyRequest) (cbc : PyResult (list Z))
    : OkeyResponse + HTTPException :=
  match solve (request_solver request) cbc with
  | Return optimal_melds_with_weights => inl (build_response optimal_melds_with_weights)
  | Raise msg => inr (mkHTTPException 500 msg)
  end.

(** ** Vocabulary of the statements *)

(** The comprehension [[i for i, t in enumerate(l) if P t]]. *)
Definition indices_where {A} (P : A → Prop) `{!∀ x, Decision (P x)}
    (l : list A) : list nat :=
  (filter (λ it, P it.2) (enumerate l)).*1.

(** A non-joker tile of color [c] whose number is [k]. *)
Definition real_tile (c : option string) (k : option Z) (t : Piece) : Prop :=
  type t ≠ okey ∧ color t = c ∧ number t = k.

#[global] Instance real_tile_dec c k t : Decision (real_tile c k t).
Proof. unfold real_tile. apply _. Defined.

(** The hand holds a real tile of color [c] and rank [n]. *)
Definition has_real (self : OkeyILPSolver) (c : option string) (n : Z) : Prop :=
  Exists (real_tile c (Some n)) (tiles self).

(** The ranks of the window [s .. s+L-1] with no real tile of color [c]. *)
Definition missing_ranks (self : OkeyILPSolver) (c : option string) (L s : Z) : list Z :=
  filter (λ n, ¬ has_real self c n) (range s (s + L)).

(** The number of joker tiles of the hand. *)
Definition joker_count (self : OkeyILPSolver) : Z :=
  len (filter (λ t, type t = okey) (tiles self)).

(** Every candidate names each of its tiles once, and only tiles of the
    hand. *)
Definition meld_wf (ntiles : nat) (m : Meld) : Prop :=
  NoDup m.1 ∧ ∀ i, i ∈ m.1 → (i < ntiles)%nat.

(** ** Packings *)

(** Two melds at different positions of [ms] share no tile index. *)
Definition index_disjoint (ms : list Meld) : Prop :=
  ∀ a b ma mb, a ≠ b → ms !! a = Some ma → ms !! b = Some mb →
    ∀ i, i ∈ ma.1 → i ∉ mb.1.

(** The total weight of a collection of melds. *)
Definition packing_weight (ms : list Meld) : Z := sum ms.*2.

(** The number of melds of [ms] that use the tile index [t]. *)
Definition usage (ms : list Meld) (t : nat) : nat :=
  length (filter (λ m, t ∈ m.1) ms).

(** The joker indices used by the melds of [ms], counted once per use. *)
Definition jokers_used (self : OkeyILPSolver) (ms : list Meld) : Z :=
  len (filter (λ i, i ∈ joker_indices self) (mjoin ms.*1)).

(** ** Example hands *)

(** [red 5, blue 5, black 5], no indicator. *)
Definition hand_set : list PieceDict :=
  [mkPieceDict "red" (Some 5); mkPieceDict "blue" (Some 5); mkPieceDict "black" (Some 5)].

(** [red 7, red 8, Joker]; used with the indicator red 9. *)
Definition hand_run : list PieceDict :=
  [mkPieceDict "red" (Some 7); mkPieceDict "red" (Some 8); mkPieceDict "okey" None].

(** [red 1, blue 9, black 3]: nothing combines. *)
Definition hand_none : list PieceDict :=
  [mkPieceDict "red" (Some 1); mkPieceDict "blue" (Some 9); mkPieceDict "black" (Some 3)].

(** [red 5, red 5, blue 5]: two tiles of the same color and rank. *)
Definition hand_dup : list PieceDict :=
  [mkPieceDict "red" (Some 5); mkPieceDict "red" (Some 5); mkPieceDict "blue" (Some 5)].

(** [Joker, red 5, blue 5]; used with the indicator black 5. *)
Definition hand_joker_first : list PieceDict :=
  [mkPieceDict "okey" None; mkPieceDict "red" (Some 5); mkPieceDict "blue" (Some 5)].

(** [purple 5, red 5, blue 5, red 99] with the indicator red 1: an unknown
    color and a rank outside 1..13. *)
Definition request_malformed : OkeyRequest :=
  mkOkeyRequest
    [mkPieceData "purple" (Some 5); mkPieceData "red" (Some 5);
     mkPieceData "blue" (Some 5); mkPieceData "red" (Some 99)]
    "red" 1.

(** [red 1, blue 9, black 3] as a request, indicator red 5. *)
Definition request_none : OkeyRequest :=
  mkOkeyRequest
    [mkPieceData "red" (Some 1); mkPieceData "blue" (Some 9);
     mkPieceData "black" (Some 3)]
    "red" 5.

(** ** Further vocabulary and hands *)

(** All 0/1 vectors of length [n]. *)
Fixpoint binary_vectors (n : nat) : list (list Z) :=
  match n with
  | O => [[]]
  | S n' => (cons 0 <$> binary_vectors n') ++ (cons 1 <$> binary_vectors n')
  end.

(** [purple 5, red 5, blue 5, red 99] as solver input. *)
Definition hand_malformed : list PieceDict :=
  [mkPieceDict "purple" (Some 5); mkPieceDict "red" (Some 5);
   mkPieceDict "blue" (Some 5); mkPieceDict "red" (Some 99)].

(** Three Jokers. *)
Definition hand_jokers : list PieceDict :=
  [mkPieceDict "okey" None; mkPieceDict "okey" None; mkPieceDict "okey" None].

(** [red 4, FakeJoker, red 6]; used with the indicator red 4. *)
Definition hand_fake : list PieceDict :=
  [mkPieceDict "red" (Some 4); mkPieceDict "fake_okey" None; mkPieceDict "red" (Some 6)].

(** [red 7, red 8, Joker] as a request, indicator red 9. *)
Definition request_run : OkeyRequest :=
  mkOkeyRequest
    [mkPieceData "red" (Some 7); mkPieceData "red" (Some 8); mkPieceData "okey" None]
    "red" 9.

(** The solver objects of some of the hands above. *)
Definition solver_run : OkeyILPSolver :=
  OkeyILPSolver_init hand_run (Some "red"%string) (Some 9).

Definition solver_malformed : OkeyILPSolver :=
  OkeyILPSolver_init hand_malformed (Some "red"%string) (Some 1).

Definition solver_joker_first : OkeyILPSolver :=
  OkeyILPSolver_init hand_joker_first (Some "black"%string) (Some 5).

Definition solver_fake : OkeyILPSolver :=
  OkeyILPSolver_init hand_fake (Some "red"%string) (Some 4).

Definition solver_jokers : OkeyILPSolver :=
  OkeyILPSolver_init hand_jokers (Some "red"%string) (Some 4).

Definition solver_set : OkeyILPSolver := OkeyILPSolver_init hand_set None None.

(** ** Hands with several melds *)

(** [red 1, red 2, red 3, blue 7, black 7, yellow 7, Joker]; indicator
    green 1. *)
Definition hand_two_melds : list PieceDict :=
  [mkPieceDict "red" (Some 1); mkPieceDict "red" (Some 2); mkPieceDict "red" (Some 3);
   mkPieceDict "blue" (Some 7); mkPieceDict "black" (Some 7);
   mkPieceDict "yellow" (Some 7); mkPieceDict "okey" None].

Definition solver_two_melds : OkeyILPSolver :=
  OkeyILPSolver_init hand_two_melds (Some "green"%string) (Some 1).

(** [red 5, red 5, red 6, red 7, blue 5, black 5]: the red 5 twice, with a
    red Run and Sets of fives around it. *)
Definition hand_dup_run : list PieceDict :=
  [mkPieceDict "red" (Some 5); mkPieceDict "red" (Some 5); mkPieceDict "red" (Some 6);
   mkPieceDict "red" (Some 7); mkPieceDict "blue" (Some 5); mkPieceDict "black" (Some 5)].

Definition solver_dup_run : OkeyILPSolver := OkeyILPSolver_init hand_dup_run None None.

(** [red 4, red 5, red 6, blue 5, black 5]: the Run 4..6 and the Set of
    fives both weigh 15 and share the red 5. *)
Definition hand_tie : list PieceDict :=
  [mkPieceDict "red" (Some 4); mkPieceDict "red" (Some 5); mkPieceDict "red" (Some 6);
   mkPieceDict "blue" (Some 5); mkPieceDict "black" (Some 5)].

Definition solver_tie : OkeyILPSolver := OkeyILPSolver_init hand_tie None None.

(** Red, blue and black 13, 12 and 11; indicator yellow 1. *)
Definition request_open : OkeyRequest :=
  mkOkeyRequest
    [mkPieceData "red" (Some 13); mkPieceData "blue" (Some 13); mkPieceData "black" (Some 13);
     mkPieceData "red" (Some 12); mkPieceData "blue" (Some 12); mkPieceData "black" (Some 12);
     mkPieceData "red" (Some 11); mkPieceData "blue" (Some 11); mkPieceData "black" (Some 11)]
    "yellow" 1.

(** [red 5, red 5, blue 5] as a request; indicator black 1. *)
Definition request_dup : OkeyRequest :=
  mkOkeyRequest
    [mkPieceData "red" (Some 5); mkPieceData "red" (Some 5); mkPieceData "blue" (Some 5)]
    "black" 1.

(** ** Structural validity, in the words of the spec's data model

    A Set: 3 or 4 tiles, one rank, the non-joker members of pairwise
    different colors.  A Run: 3 to 13 tiles of one color on a window of
    consecutive ranks inside 1..13, the non-joker members on pairwise
    different ranks of the window.  Jokers fill the other places. *)

Definition spec_valid_set (ts : list Piece) (idxs : list nat) : Prop :=
  NoDup idxs ∧ (∀ i, i ∈ idxs → (i < length ts)%nat) ∧
  (length idxs = 3 ∨ length idxs = 4)%nat ∧
  (∃ rank, 1 <= rank <= 13 ∧
     ∀ i t, i ∈ idxs → ts !! i = Some t → type t ≠ okey → number t = Some rank) ∧
  (∀ i j ti tj, i ∈ idxs → j ∈ idxs → i ≠ j →
     ts !! i = Some ti → ts !! j = Some tj →
     type ti ≠ okey → type tj ≠ okey → color ti ≠ color tj).

Definition spec_valid_run (ts : list Piece) (idxs : list nat) : Prop :=
  NoDup idxs ∧ (∀ i, i ∈ idxs → (i < length ts)%nat) ∧
  ∃ c L s,
    3 <= L <= 13 ∧ 1 <= s ∧ s + L <= 14 ∧ Z.of_nat (length idxs) = L ∧
    (∀ i t, i ∈ idxs → ts !! i = Some t → type t ≠ okey →
       color t = c ∧ ∃ n, number t = Some n ∧ s <= n < s + L) ∧
    (∀ i j ti tj, i ∈ idxs → j ∈ idxs → i ≠ j →
       ts !! i = Some ti → ts !! j = Some tj →
       type ti ≠ okey → type tj ≠ okey → number ti ≠ number tj).

Definition spec_valid_meld (ts : list Piece) (idxs : list nat) : Prop :=
  spec_valid_set ts idxs ∨ spec_valid_run ts idxs.

(** No choice of tiles of the hand is a valid meld. *)
Definition no_valid_meld (ts : list Piece) : Prop :=
  ∀ idxs, ¬ spec_valid_meld ts idxs.

(** No two non-joker tiles of the hand have the same color and rank. *)
Definition no_duplicate_tiles (ts : list Piece) : Prop :=
  ∀ i j ti tj, i ≠ j → ts !! i = Some ti → ts !! j = Some tj →
    type ti ≠ okey → type tj ≠ okey →
    ¬ (color ti = color tj ∧ number ti = number tj).

(** * Properties *)

(** ** Python helpers *)

Lemma len_nonneg {A} (l : list A) : 0 <= len l.
Proof. unfold len. lia. Qed.

Lemma elem_of_range a b n : n ∈ range a b ↔ a <= n < b.
Proof. unfold range. rewrite elem_of_seqZ. lia. Qed.

Lemma enumerate_snoc {A} (l : list A) x :
  enumerate (l ++ [x]) = enumerate l ++ [(length l, x)].
Proof.
  unfold enumerate. rewrite imap_app. simpl.
  by rewrite Nat.add_0_r.
Qed.

Lemma elem_of_enumerate {A} (l : list A) i x :
  (i, x) ∈ enumerate l ↔ l !! i = Some x.
Proof.
  unfold enumerate. rewrite elem_of_lookup_imap. split.
  - intros (j & y & Heq & Hl). by simplify_eq.
  - intros Hl. by exists i, x.
Qed.

Section indices.
Context {A : Type} (P : A → Prop) `{!∀ x, Decision (P x)}.

Lemma elem_of_indices_where l i :
  i ∈ indices_where P l ↔ ∃ x, l !! i = Some x ∧ P x.
Proof.
  unfold indices_where. rewrite list_elem_of_fmap. split.
  - intros ([j x] & -> & Hin). apply list_elem_of_filter in Hin as [HP Hin].
    apply elem_of_enumerate in Hin. by exists x.
  - intros (x & Hl & HP). exists (i, x). split; [done|].
    apply list_elem_of_filter. split; [done|]. by apply elem_of_enumerate.
Qed.

Lemma indices_where_lt l i : i ∈ indices_where P l → (i < length l)%nat.
Proof.
  rewrite elem_of_indices_where. intros (x & Hl & _).
  by eapply lookup_lt_Some.
Qed.

Lemma indices_where_sorted l : StronglySorted lt (indices_where P l).
Proof.
  induction l as [|x l IH] using rev_ind; [constructor|].
  unfold indices_where in *. rewrite enumerate_snoc, filter_app, fmap_app.
  apply StronglySorted_app. split_and!; [|done|].
  - intros i j Hi Hj.
    apply indices_where_lt in Hi.
    apply list_elem_of_fmap in Hj as ([j' y] & -> & Hj).
    apply list_elem_of_filter in Hj as [_ Hj].
    apply list_elem_of_singleton in Hj. by simplify_eq.
  - simpl. rewrite filter_cons. case_decide; simpl; repeat constructor.
Qed.

Lemma indices_where_NoDup l : NoDup (indices_where P l).
Proof.
  generalize (indices_where_sorted l).
  induction 1 as [|i k _ IH Hall]; constructor; [|done].
  intros Hin. rewrite Forall_forall in Hall. specialize (Hall _ Hin). lia.
Qed.
End indices.

Lemma index_jokers_spec ts i :
  i ∈ index_jokers ts ↔ ∃ t, ts !! i = Some t ∧ type t = okey.
Proof. exact (elem_of_indices_where (λ t, type t = okey) ts i). Qed.

Lemma index_non_jokers_spec ts i :
  i ∈ index_non_jokers ts ↔ ∃ t, ts !! i = Some t ∧ type t ≠ okey.
Proof. exact (elem_of_indices_where (λ t, type t ≠ okey) ts i). Qed.

Lemma index_jokers_sorted ts : StronglySorted lt (index_jokers ts).
Proof. exact (indices_where_sorted (λ t, type t = okey) ts). Qed.

Lemma index_non_jokers_sorted ts : StronglySorted lt (index_non_jokers ts).
Proof. exact (indices_where_sorted (λ t, type t ≠ okey) ts). Qed.

Lemma index_jokers_NoDup ts : NoDup (index_jokers ts).
Proof. exact (indices_where_NoDup (λ t, type t = okey) ts). Qed.

Lemma index_non_jokers_NoDup ts : NoDup (index_non_jokers ts).
Proof. exact (indices_where_NoDup (λ t, type t ≠ okey) ts). Qed.

(** ** [itertools.combinations] *)

Lemma combinations_sublist {A} (l : list A) r c :
  c ∈ combinations l r → c `sublist_of` l ∧ length c = r.
Proof.
  revert r c. induction l as [|x l IH]; intros [|r] c; simpl.
  - intros ->%list_elem_of_singleton. split; [constructor|done].
  - by intros ?%elem_of_nil.
  - intros ->%list_elem_of_singleton. split; [apply sublist_nil_l|done].
  - rewrite elem_of_app, list_elem_of_fmap.
    intros [(c' & -> & Hc')|Hc].
    + apply IH in Hc' as [Hs Hlen]. split; [by constructor|by simpl; f_equal].
    + apply IH in Hc as [Hs Hlen]. split; [by constructor|done].
Qed.

Lemma combinations_nonempty {A} (l : list A) r :
  (r ≤ length l)%nat → combinations l r ≠ [].
Proof.
  revert r. induction l as [|x l IH]; intros [|r] Hr; simpl in *; try done; try lia.
  intros [Heq _]%app_eq_nil. apply fmap_nil_inv in Heq.
  apply (IH r); [lia|done].
Qed.

(** ** The rank dictionary of the Run pass *)

Lemma num_to_idx_snoc ts js njs t c :
  num_to_idx (mkSolver (ts ++ [t]) js njs) c =
  let d := num_to_idx (mkSolver ts js njs) c in
  if decide (type t ≠ okey ∧ color t = c) then <[number t := length ts]> d else d.
Proof. unfold num_to_idx. simpl. by rewrite enumerate_snoc, foldl_snoc. Qed.

(** The dictionary maps [k] to the last index holding a real tile of that
    color and number. *)
Lemma num_to_idx_Some self c k i :
  num_to_idx self c !! k = Some i ↔
  (∃ t, tiles self !! i = Some t ∧ real_tile c k t) ∧
  (∀ j t', (i < j)%nat → tiles self !! j = Some t' → ¬ real_tile c k t').
Proof.
  destruct self as [ts js njs]. simpl. revert i.
  induction ts as [|t ts IH] using rev_ind; intros i.
  { unfold num_to_idx. simpl. rewrite lookup_empty. split; [done|].
    intros [(t & Ht & _) _]. by rewrite lookup_nil in Ht. }
  rewrite num_to_idx_snoc. simpl.
  assert (Hlast : (ts ++ [t]) !! length ts = Some t).
  { by rewrite lookup_app_r, Nat.sub_diag by lia. }
  destruct (decide (real_tile c k t)) as [Hreal|Hnreal].
  - destruct Hreal as (Hty & Hc & Hk).
    rewrite decide_True by done. rewrite <-Hk, lookup_insert_eq. split.
    + intros [= <-]. split; [by exists t|].
      intros j t' Hj Hl. apply lookup_lt_Some in Hl.
      rewrite length_app in Hl. simpl in Hl. lia.
    + intros [(t0 & Ht0 & _) Hno]. f_equal.
      pose proof (lookup_lt_Some _ _ _ Ht0) as Hlt.
      rewrite length_app in Hlt. simpl in Hlt.
      destruct (decide (i = length ts)) as [->|Hne]; [done|].
      exfalso. apply (Hno (length ts) t); [lia|done|done].
  - assert (Hskip :
      (if decide (type t ≠ okey ∧ color t = c)
       then <[number t := length ts]> (num_to_idx (mkSolver ts js njs) c)
       else num_to_idx (mkSolver ts js njs) c) !! k
      = num_to_idx (mkSolver ts js njs) c !! k).
    { case_decide as Hd; [|done]. apply lookup_insert_ne.
      intros Hk. apply Hnreal. by destruct Hd. }
    rewrite Hskip, IH. clear Hskip IH. split.
    + intros [(t0 & Ht0 & Hr0) Hno]. split.
      * exists t0. split; [|done]. by apply lookup_app_l_Some.
      * intros j t' Hj Hl. apply lookup_app_Some in Hl as [Hl|[_ Hl]].
        -- by apply (Hno j).
        -- apply list_lookup_singleton_Some in Hl as [_ <-]. done.
    + intros [(t0 & Ht0 & Hr0) Hno].
      apply lookup_app_Some in Ht0 as [Ht0|[_ Ht0]].
      * split; [by exists t0|].
        intros j t' Hj Hl. apply (Hno j); [done|]. by apply lookup_app_l_Some.
      * apply list_lookup_singleton_Some in Ht0 as [_ <-]. done.
Qed.

(** A key is absent exactly when no real tile of that color carries it. *)
Lemma num_to_idx_None self c k :
  num_to_idx self c !! k = None ↔ ¬ Exists (real_tile c k) (tiles self).
Proof.
  destruct self as [ts js njs]. simpl.
  induction ts as [|t ts IH] using rev_ind.
  { unfold num_to_idx. simpl. rewrite lookup_empty, Exists_nil. tauto. }
  rewrite num_to_idx_snoc, Exists_app, Exists_cons, Exists_nil. simpl.
  destruct (decide (real_tile c k t)) as [Hreal|Hnreal].
  - destruct Hreal as (Hty & Hc & Hk).
    rewrite decide_True by done. rewrite <-Hk, lookup_insert_eq.
    split; [done|]. intros []. right. left. by rewrite Hk.
  - case_decide as Hd.
    + rewrite lookup_insert_ne, IH; [tauto|].
      intros Hk. apply Hnreal. by destruct Hd.
    + rewrite IH. tauto.
Qed.

Lemma num_to_idx_is_Some self c k :
  is_Some (num_to_idx self c !! k) ↔ Exists (real_tile c k) (tiles self).
Proof.
  rewrite <-not_eq_None_Some, num_to_idx_None.
  split; [apply dec_stable|tauto].
Qed.

(** ** [real_idxs] of a Run window *)

Lemma elem_of_run_real_idxs self c L s i :
  i ∈ run_real_idxs self c L s ↔
  ∃ n, s <= n < s + L ∧ num_to_idx self c !! Some n = Some i.
Proof.
  unfold run_real_idxs. rewrite list_elem_of_omap.
  setoid_rewrite elem_of_range. done.
Qed.

Lemma run_real_idxs_real self c L s i :
  i ∈ run_real_idxs self c L s →
  ∃ t, tiles self !! i = Some t ∧ type t ≠ okey ∧ color t = c.
Proof.
  rewrite elem_of_run_real_idxs. intros (n & _ & Hn).
  apply num_to_idx_Some in Hn as [(t & Ht & Hty & Hc & _) _]. eauto.
Qed.

Lemma NoDup_omap_inj {A B} (f : A → option B) (l : list A) :
  (∀ x y z, f x = Some z → f y = Some z → x = y) →
  NoDup l → NoDup (omap f l).
Proof.
  intros Hinj. induction 1 as [|x l Hx Hl IH]; simpl; [constructor|].
  destruct (f x) as [z|] eqn:Hfx; [|done].
  constructor; [|done].
  intros (y & Hy & Hfy)%list_elem_of_omap.
  by rewrite (Hinj x y z) in Hx.
Qed.

Lemma run_real_idxs_NoDup self c L s : NoDup (run_real_idxs self c L s).
Proof.
  apply NoDup_omap_inj; [|apply NoDup_seqZ].
  intros n1 n2 i H1 H2.
  apply num_to_idx_Some in H1 as [(t1 & Ht1 & _ & _ & Hn1) _].
  apply num_to_idx_Some in H2 as [(t2 & Ht2 & _ & _ & Hn2) _].
  congruence.
Qed.

Lemma length_omap_filter_None {A B} (f : A → option B) (l : list A) :
  (length (omap f l) + length (filter (λ x, f x = None) l) = length l)%nat.
Proof.
  induction l as [|x l IH]; [done|]. rewrite filter_cons. cbn [omap list_omap].
  destruct (f x) eqn:Hfx.
  - rewrite decide_False by done. simpl in *. lia.
  - rewrite decide_True by done. simpl in *. lia.
Qed.

(** ** The shape of the enumerated candidates *)

Lemma elem_of_set_melds_of_num self num m :
  m ∈ set_melds_of_num self num ↔
  ∃ size r real_comb joker_comb,
    3 <= size <= Z.min 4 (len (set_real_idxs self num) + len (joker_indices self)) ∧
    Z.max 1 (size - len (joker_indices self)) <= r
      <= Z.min size (len (set_real_idxs self num)) ∧
    real_comb ∈ combinations (set_real_idxs self num) (Z.to_nat r) ∧
    joker_comb ∈ combinations (joker_indices self) (Z.to_nat (size - r)) ∧
    m = (real_comb ++ joker_comb, num * size).
Proof.
  unfold set_melds_of_num. rewrite list_elem_of_bind. split.
  - intros (size & Hm & Hsize). apply elem_of_range in Hsize.
    apply list_elem_of_bind in Hm as (r & Hm & Hr). apply elem_of_range in Hr.
    apply list_elem_of_bind in Hm as (rc & Hm & Hrc).
    apply list_elem_of_bind in Hm as (jc & Hm & Hjc).
    apply list_elem_of_singleton in Hm.
    exists size, r, rc, jc. split_and!; try done; lia.
  - intros (size & r & rc & jc & Hsize & Hr & Hrc & Hjc & ->).
    exists size. split; [|apply elem_of_range; lia].
    apply list_elem_of_bind. exists r. split; [|apply elem_of_range; lia].
    apply list_elem_of_bind. exists rc. split; [|done].
    apply list_elem_of_bind. exists jc. split; [|done].
    by apply list_elem_of_singleton.
Qed.

Lemma elem_of_set_melds self m :
  m ∈ set_melds self ↔ ∃ num, 1 <= num <= 13 ∧ m ∈ set_melds_of_num self num.
Proof.
  unfold set_melds. rewrite list_elem_of_bind.
  setoid_rewrite elem_of_range. split; intros (num & H1 & H2); exists num.
  - split; [lia|done].
  - split; [done|lia].
Qed.

Lemma elem_of_run_window self c L s m :
  m ∈ run_window self c L s ↔
  L - len (run_real_idxs self c L s) <= len (joker_indices self) ∧
  1 <= len (run_real_idxs self c L s) ∧
  ∃ joker_comb,
    joker_comb ∈ combinations (joker_indices self)
                   (Z.to_nat (L - len (run_real_idxs self c L s))) ∧
    m = (sorted (run_real_idxs self c L s ++ joker_comb), sum (range s (s + L))).
Proof.
  unfold run_window. case_decide as Hd.
  - rewrite list_elem_of_bind. setoid_rewrite list_elem_of_singleton. split.
    + intros (jc & -> & Hjc). split_and!; [lia..|]. by exists jc.
    + intros (_ & _ & jc & Hjc & ->). by exists jc.
  - rewrite elem_of_nil. split; [done|]. intros (? & ? & _). lia.
Qed.

Lemma elem_of_run_melds self m :
  m ∈ run_melds self ↔
  ∃ c L s, c ∈ colors self ∧ 3 <= L <= 13 ∧ 1 <= s ∧ s + L <= 14 ∧
           m ∈ run_window self c L s.
Proof.
  unfold run_melds, run_melds_of_color. rewrite list_elem_of_bind. split.
  - intros (c & Hm & Hc).
    apply list_elem_of_bind in Hm as (L & Hm & HL). apply elem_of_range in HL.
    apply list_elem_of_bind in Hm as (s & Hm & Hs). apply elem_of_range in Hs.
    exists c, L, s. split_and!; try done; lia.
  - intros (c & L & s & Hc & HL & Hs1 & Hs2 & Hm).
    exists c. split; [|done].
    apply list_elem_of_bind. exists L. split; [|apply elem_of_range; lia].
    apply list_elem_of_bind. exists s. split; [done|apply elem_of_range; lia].
Qed.

Lemma elem_of_enumerate_melds self m :
  m ∈ _enumerate_melds self ↔ m ∈ set_melds self ∨ m ∈ run_melds self.
Proof. unfold _enumerate_melds. apply elem_of_app. Qed.

Lemma elem_of_colors self c :
  c ∈ colors self ↔ ∃ t, t ∈ tiles self ∧ type t ≠ okey ∧ color t = c.
Proof.
  unfold colors. rewrite elem_of_remove_dups, list_elem_of_fmap. split.
  - intros (t & -> & [Hty Ht]%list_elem_of_filter). by exists t.
  - intros (t & Ht & Hty & <-). exists t. split; [done|].
    by apply list_elem_of_filter.
Qed.

(** The members of a Set candidate: real tiles of the rank, then jokers. *)
Lemma elem_of_set_real_idxs ts num i :
  i ∈ set_real_idxs (solver_of_tiles ts) num ↔
  ∃ t, ts !! i = Some t ∧ type t ≠ okey ∧ number t = Some num.
Proof.
  unfold set_real_idxs. simpl.
  rewrite list_elem_of_filter, index_non_jokers_spec. split.
  - intros [Hn (t & Ht & Hty)]. exists t. rewrite Ht in Hn. by simplify_eq/=.
  - intros (t & Ht & Hty & Hn). rewrite Ht. simpl. split; [by rewrite Hn|eauto].
Qed.

Lemma StronglySorted_sublist {A} (R : relation A) (l k : list A) :
  l `sublist_of` k → StronglySorted R k → StronglySorted R l.
Proof.
  induction 1 as [|x l k Hs IH|x l k Hs IH]; intros Hk; [done|..].
  - apply StronglySorted_cons in Hk as [Hall Hk].
    apply StronglySorted_cons. split; [|by apply IH].
    rewrite Forall_forall in *. intros y Hy. apply Hall.
    by apply (sublist_subseteq _ _ Hs).
  - apply StronglySorted_cons in Hk as [_ Hk]. by apply IH.
Qed.

Lemma set_real_idxs_sorted ts num :
  StronglySorted lt (set_real_idxs (solver_of_tiles ts) num).
Proof.
  eapply StronglySorted_sublist; [apply sublist_filter|].
  apply index_non_jokers_sorted.
Qed.

Lemma set_meld_wf ts m : m ∈ set_melds (solver_of_tiles ts) → meld_wf (length ts) m.
Proof.
  intros (num & _ & Hm)%elem_of_set_melds.
  apply elem_of_set_melds_of_num in Hm
    as (size & r & rc & jc & _ & _ & Hrc & Hjc & ->).
  apply combinations_sublist in Hrc as [Hrc _].
  apply combinations_sublist in Hjc as [Hjc _]. simpl in Hjc.
  assert (Hreal : ∀ i, i ∈ rc → ∃ t, ts !! i = Some t ∧ type t ≠ okey).
  { intros i Hi. apply (sublist_subseteq _ _ Hrc) in Hi.
    apply elem_of_set_real_idxs in Hi as (t & Ht & Hty & _). eauto. }
  assert (Hjok : ∀ i, i ∈ jc → ∃ t, ts !! i = Some t ∧ type t = okey).
  { intros i Hi. apply (sublist_subseteq _ _ Hjc) in Hi.
    by apply index_jokers_spec in Hi. }
  split; simpl.
  - apply NoDup_app. split_and!.
    + eapply sublist_NoDup; [|done].
      apply NoDup_filter, index_non_jokers_NoDup.
    + intros i Hi Hi'. apply Hreal in Hi as (t & Ht & Hty).
      apply Hjok in Hi' as (t' & Ht' & Hty'). congruence.
    + eapply sublist_NoDup; [apply index_jokers_NoDup|done].
  - intros i [Hi|Hi]%elem_of_app.
    + apply Hreal in Hi as (t & Ht & _). by eapply lookup_lt_Some.
    + apply Hjok in Hi as (t & Ht & _). by eapply lookup_lt_Some.
Qed.

Lemma run_window_wf ts c L s m :
  m ∈ run_window (solver_of_tiles ts) c L s → meld_wf (length ts) m.
Proof.
  intros (_ & _ & jc & Hjc & ->)%elem_of_run_window.
  apply combinations_sublist in Hjc as [Hjc _]. simpl in Hjc.
  assert (Hjok : ∀ i, i ∈ jc → ∃ t, ts !! i = Some t ∧ type t = okey).
  { intros i Hi. apply (sublist_subseteq _ _ Hjc) in Hi.
    by apply index_jokers_spec in Hi. }
  unfold meld_wf, sorted. simpl. rewrite merge_sort_Permutation.
  setoid_rewrite merge_sort_Permutation. split.
  - apply NoDup_app. split_and!.
    + apply run_real_idxs_NoDup.
    + intros i Hi Hi'. apply run_real_idxs_real in Hi as (t & Ht & Hty & _).
      apply Hjok in Hi' as (t' & Ht' & Hty'). simpl in Ht. congruence.
    + eapply sublist_NoDup; [apply index_jokers_NoDup|done].
  - intros i [Hi|Hi]%elem_of_app.
    + apply run_real_idxs_real in Hi as (t & Ht & _). by eapply lookup_lt_Some.
    + apply Hjok in Hi as (t & Ht & _). by eapply lookup_lt_Some.
Qed.

Lemma enumerate_melds_wf ts m :
  m ∈ _enumerate_melds (solver_of_tiles ts) → meld_wf (length ts) m.
Proof.
  intros [Hm|Hm]%elem_of_enumerate_melds.
  - by apply set_meld_wf.
  - apply elem_of_run_melds in Hm as (c & L & s & _ & _ & _ & _ & Hm).
    by eapply run_window_wf.
Qed.

(** ** Counting in a Run window *)

Lemma length_indices_where {A} (P : A → Prop) `{!∀ x, Decision (P x)} (l : list A) :
  length (indices_where P l) = length (filter P l).
Proof.
  induction l as [|x l IH] using rev_ind; [done|].
  unfold indices_where in *.
  rewrite enumerate_snoc, !filter_app, fmap_app, !length_app, IH.
  f_equal. rewrite !filter_cons, !filter_nil. simpl. by case_decide.
Qed.

Lemma len_joker_indices ts :
  len (joker_indices (solver_of_tiles ts)) = joker_count (solver_of_tiles ts).
Proof.
  unfold joker_count, len. simpl. f_equal.
  exact (length_indices_where (λ t, type t = okey) ts).
Qed.

Lemma len_run_real_idxs self c L s :
  0 <= L →
  len (run_real_idxs self c L s) = L - len (missing_ranks self c L s).
Proof.
  intros HL. unfold len, run_real_idxs, missing_ranks.
  pose proof (length_omap_filter_None
                (λ n, num_to_idx self c !! Some n) (range s (s + L))) as Hlen.
  rewrite (list_filter_iff _ (λ n, ¬ has_real self c n)) in Hlen
    by (intros n; apply num_to_idx_None).
  unfold range in Hlen at 3. rewrite length_seqZ in Hlen. lia.
Qed.

Lemma run_real_idxs_nonempty self c L s :
  1 <= len (run_real_idxs self c L s) ↔ ∃ n, s <= n < s + L ∧ has_real self c n.
Proof.
  split.
  - intros Hlen. destruct (run_real_idxs self c L s) as [|i l] eqn:Heq.
    { unfold len in Hlen. simpl in Hlen. lia. }
    assert (Hi : i ∈ run_real_idxs self c L s) by (rewrite Heq; left).
    apply elem_of_run_real_idxs in Hi as (n & Hn & Hlk).
    exists n. split; [done|]. apply num_to_idx_is_Some. eauto.
  - intros (n & Hn & Hreal). apply num_to_idx_is_Some in Hreal as [i Hi].
    assert (Hin : i ∈ run_real_idxs self c L s).
    { apply elem_of_run_real_idxs. eauto. }
    destruct (run_real_idxs self c L s); [by apply elem_of_nil in Hin|].
    unfold len. simpl. lia.
Qed.

Lemma sum_cons x l : sum (x :: l) = x + sum l.
Proof. done. Qed.

Lemma sum_seqZ s (k : nat) : 2 * sum (seqZ s (Z.of_nat k)) = Z.of_nat k * (2 * s + Z.of_nat k - 1).
Proof.
  revert s. induction k as [|k IH]; intros s; [done|].
  rewrite seqZ_cons by lia. rewrite sum_cons.
  replace (Z.pred (Z.of_nat (S k))) with (Z.of_nat k) by lia.
  specialize (IH (Z.succ s)). nia.
Qed.

Lemma sum_range s L : 0 <= L → 2 * sum (range s (s + L)) = L * (2 * s + L - 1).
Proof.
  intros HL. unfold range. replace (s + L - s) with (Z.of_nat (Z.to_nat L)) by lia.
  rewrite sum_seqZ. by rewrite Z2Nat.id.
Qed.

Lemma run_window_in_enumerate self c L s m :
  3 <= L <= 13 → 1 <= s → s + L <= 14 →
  m ∈ run_window self c L s → m ∈ _enumerate_melds self.
Proof.
  intros HL Hs1 Hs2 Hm. apply elem_of_enumerate_melds. right.
  apply elem_of_run_melds. exists c, L, s. split_and!; try done; try lia.
  apply elem_of_run_window in Hm as (_ & Hlen & _).
  apply run_real_idxs_nonempty in Hlen as (n & _ & Hreal).
  apply Exists_exists in Hreal as (t & Ht & Hty & Hc & _).
  apply elem_of_colors. eauto.
Qed.

(** ** The 0/1 program and packings *)

Lemma chosen_nil_l x : chosen [] x = [].
Proof. done. Qed.

Lemma chosen_nil_r melds : chosen melds [] = [].
Proof. unfold chosen. by destruct melds. Qed.

Lemma chosen_cons m melds v x :
  chosen (m :: melds) (v :: x) =
  if decide (v = 1) then m :: chosen melds x else chosen melds x.
Proof.
  unfold chosen. simpl. rewrite filter_cons. simpl. by case_decide.
Qed.

Lemma chosen_sublist melds x : chosen melds x `sublist_of` melds.
Proof.
  revert x. induction melds as [|m melds IH]; intros [|v x];
    rewrite ?chosen_nil_l, ?chosen_nil_r; try apply sublist_nil_l.
  rewrite chosen_cons. case_decide; by constructor.
Qed.

(** Every sub-collection of the candidates is what some 0/1 assignment
    selects. *)
Lemma sublist_chosen sel melds :
  sel `sublist_of` melds →
  ∃ y, length y = length melds ∧ Forall (λ v, v = 0 ∨ v = 1) y ∧
       chosen melds y = sel.
Proof.
  induction 1 as [|m sel melds _ (y & Hlen & Hbin & Hy)
                   |m sel melds _ (y & Hlen & Hbin & Hy)].
  - by exists [].
  - exists (1 :: y). split_and!; [by simpl; f_equal|by constructor; auto|].
    rewrite chosen_cons, decide_True by done. by f_equal.
  - exists (0 :: y). split_and!; [by simpl; f_equal|by constructor; auto|].
    by rewrite chosen_cons, decide_False by done.
Qed.

Lemma lp_objective_cons m melds v x :
  lp_objective (m :: melds) (v :: x) = m.2 * v + lp_objective melds x.
Proof. done. Qed.

Lemma tile_once_lhs_cons m melds v x t :
  tile_once_lhs (m :: melds) (v :: x) t =
  (if decide (t ∈ m.1) then v else 0) + tile_once_lhs melds x t.
Proof. done. Qed.

Lemma packing_weight_cons m ms : packing_weight (m :: ms) = m.2 + packing_weight ms.
Proof. done. Qed.

Lemma lp_objective_chosen melds x :
  Forall (λ v, v = 0 ∨ v = 1) x →
  lp_objective melds x = packing_weight (chosen melds x).
Proof.
  intros Hbin. revert melds.
  induction Hbin as [|v x Hv _ IH]; intros [|m melds];
    rewrite ?chosen_nil_l, ?chosen_nil_r; try done.
  rewrite chosen_cons, lp_objective_cons, IH.
  destruct Hv as [-> | ->].
  - rewrite decide_False by done. lia.
  - rewrite decide_True, packing_weight_cons by done. lia.
Qed.

Lemma usage_cons m ms t :
  usage (m :: ms) t = ((if decide (t ∈ m.1) then 1 else 0) + usage ms t)%nat.
Proof. unfold usage. rewrite filter_cons. by case_decide. Qed.

Lemma tile_once_lhs_usage melds x t :
  Forall (λ v, v = 0 ∨ v = 1) x →
  tile_once_lhs melds x t = Z.of_nat (usage (chosen melds x) t).
Proof.
  intros Hbin. revert melds.
  induction Hbin as [|v x Hv _ IH]; intros [|m melds];
    rewrite ?chosen_nil_l, ?chosen_nil_r; try done.
  rewrite chosen_cons, tile_once_lhs_cons, IH.
  destruct Hv as [-> | ->].
  - rewrite (decide_False (P := 0 = 1)) by done. case_decide; lia.
  - rewrite (decide_True (P := 1 = 1)), usage_cons by done. case_decide; lia.
Qed.

Lemma index_disjoint_cons m ms :
  index_disjoint (m :: ms) ↔
  (∀ m' i, m' ∈ ms → i ∈ m.1 → i ∉ m'.1) ∧ index_disjoint ms.
Proof.
  unfold index_disjoint. split.
  - intros H. split.
    + intros m' i [b Hb]%list_elem_of_lookup Hi. by apply (H 0%nat (S b) m m').
    + intros a b ma mb Hab Ha Hb. by apply (H (S a) (S b)); [lia|..].
  - intros [Hhd Htl] [|a] [|b] ma mb Hab Ha Hb i Hi Hi'; simplify_eq/=.
    + apply (Hhd mb i); [by eapply list_elem_of_lookup_2|done..].
    + apply (Hhd ma i); [by eapply list_elem_of_lookup_2|done..].
    + by apply (Htl a b ma mb ltac:(lia) Ha Hb i).
Qed.

Lemma usage_pos ms m t : m ∈ ms → t ∈ m.1 → (1 ≤ usage ms t)%nat.
Proof.
  intros Hm Ht. unfold usage.
  assert (Hin : m ∈ filter (λ m, t ∈ m.1) ms) by by apply list_elem_of_filter.
  destruct (filter _ ms); [by apply elem_of_nil in Hin|simpl; lia].
Qed.

Lemma usage_zero ms t : (∀ m, m ∈ ms → t ∉ m.1) → usage ms t = 0%nat.
Proof.
  intros H. unfold usage.
  destruct (filter _ ms) as [|m l] eqn:Heq; [done|].
  assert (Hin : m ∈ filter (λ m, t ∈ m.1) ms) by (rewrite Heq; left).
  apply list_elem_of_filter in Hin as [Ht Hm]. by destruct (H m Hm).
Qed.

(** Melds at different positions are disjoint exactly when no tile index is
    used twice. *)
Lemma index_disjoint_usage ms t : index_disjoint ms → (usage ms t ≤ 1)%nat.
Proof.
  induction ms as [|m ms IH]; [by intros _; unfold usage; simpl; lia|].
  intros [Hhd Htl]%index_disjoint_cons. rewrite usage_cons. case_decide as Ht.
  - rewrite usage_zero; [lia|]. intros m' Hm'. by apply Hhd.
  - specialize (IH Htl). lia.
Qed.

Lemma usage_index_disjoint ms :
  (∀ m t, m ∈ ms → t ∈ m.1 → (usage ms t ≤ 1)%nat) → index_disjoint ms.
Proof.
  induction ms as [|m ms IH]; [by intros _ ?????; rewrite lookup_nil|].
  intros H. apply index_disjoint_cons. split.
  - intros m' i Hm' Hi Hi'.
    specialize (H m i ltac:(left) Hi). rewrite usage_cons in H.
    rewrite decide_True in H by done.
    pose proof (usage_pos ms m' i Hm' Hi'). lia.
  - apply IH. intros m' t Hm' Ht.
    specialize (H m' t ltac:(by right) Ht). rewrite usage_cons in H. lia.
Qed.

(** A feasible assignment selects melds that are disjoint position by
    position, provided every index of a candidate has its constraint. *)
Lemma lp_feasible_disjoint melds ntiles x :
  (∀ m, m ∈ melds → meld_wf ntiles m) →
  lp_feasible melds ntiles x → index_disjoint (chosen melds x).
Proof.
  intros Hwf (Hlen & Hbin & Hc). apply usage_index_disjoint.
  intros m t Hm Ht.
  apply (sublist_subseteq _ _ (chosen_sublist melds x)) in Hm.
  destruct (Hwf m Hm) as [_ Hlt]. specialize (Hlt t Ht).
  rewrite Forall_seq in Hc. specialize (Hc t ltac:(lia)).
  rewrite tile_once_lhs_usage in Hc by done. lia.
Qed.

(** A disjoint sub-collection of the candidates is a feasible assignment of
    the same weight. *)
Lemma disjoint_lp_feasible melds ntiles sel :
  sel `sublist_of` melds → index_disjoint sel →
  ∃ y, lp_feasible melds ntiles y ∧ lp_objective melds y = packing_weight sel.
Proof.
  intros (y & Hlen & Hbin & <-)%sublist_chosen Hdis.
  exists y. split; [|by apply lp_objective_chosen].
  split_and!; [done..|]. apply Forall_seq. intros t _.
  rewrite tile_once_lhs_usage by done.
  pose proof (index_disjoint_usage _ t Hdis). lia.
Qed.

Lemma NoDup_join_disjoint ms :
  index_disjoint ms → (∀ m, m ∈ ms → NoDup m.1) → NoDup (mjoin ms.*1).
Proof.
  induction ms as [|m ms IH]; [by intros; constructor|].
  intros [Hhd Htl]%index_disjoint_cons Hnd. simpl.
  apply NoDup_app. split_and!.
  - apply Hnd. left.
  - intros i Hi (l & Hil & Hl)%list_elem_of_join.
    apply list_elem_of_fmap in Hl as (m' & -> & Hm'). by apply (Hhd m' i).
  - apply IH; [done|]. intros m' Hm'. apply Hnd. by right.
Qed.

(** ** The extraction loop *)

Lemma meld_pieces_Some ts idxs :
  (∀ i, i ∈ idxs → (i < length ts)%nat) →
  ∃ ps, meld_pieces (solver_of_tiles ts) idxs = Some ps ∧
        Forall2 (λ i p, ts !! i = Some p) idxs ps.
Proof.
  intros Hlt. unfold meld_pieces. simpl.
  destruct (mapM (λ idx, ts !! idx) idxs) as [ps|] eqn:Hps.
  - exists ps. split; [done|]. by apply mapM_Some_1 in Hps.
  - apply mapM_None_1, Exists_exists in Hps as (i & Hi & Hnone).
    apply lookup_ge_None in Hnone. specialize (Hlt i Hi). lia.
Qed.

(** The subscripts of the extraction loop stay inside the tile list, so the
    loop returns; each returned meld lists the tiles at the indices of its
    candidate, in the candidate's order, with the candidate's weight. *)
Lemma extract_Some ts x :
  ∃ solution,
    extract (solver_of_tiles ts) x = Some solution ∧
    Forall2 (λ m mw, Forall2 (λ i p, ts !! i = Some p) m.1 mw.1 ∧ mw.2 = m.2)
      (chosen (_enumerate_melds (solver_of_tiles ts)) x) solution.
Proof.
  unfold extract.
  pose proof (chosen_sublist (_enumerate_melds (solver_of_tiles ts)) x) as Hsub.
  apply sublist_subseteq in Hsub.
  induction (chosen (_enumerate_melds (solver_of_tiles ts)) x) as [|m ms IH].
  { exists []. split; [done|constructor]. }
  destruct IH as (sol & Hsol & Hrel).
  { intros m' Hm'. apply Hsub. by right. }
  destruct (enumerate_melds_wf ts m) as [_ Hlt]; [apply Hsub; left|].
  destruct (meld_pieces_Some ts m.1 Hlt) as (ps & Hps & Hrelps).
  exists ((ps, m.2) :: sol). split.
  - cbn [mapM]. rewrite Hps. simpl. by rewrite Hsol.
  - by constructor.
Qed.

Lemma solve_Return ts x :
  ∃ solution,
    solve (solver_of_tiles ts) (Return x) = Return solution ∧
    Forall2 (λ m mw, Forall2 (λ i p, ts !! i = Some p) m.1 mw.1 ∧ mw.2 = m.2)
      (chosen (_enumerate_melds (solver_of_tiles ts)) x) solution.
Proof.
  destruct (extract_Some ts x) as (sol & Hsol & Hrel).
  exists sol. split; [|done]. unfold solve. by rewrite Hsol.
Qed.

Lemma foldl_score a (solution : list (list Piece * Z)) :
  foldl (λ acc mw, acc + mw.2) a solution = a + sum solution.*2.
Proof.
  revert a. induction solution as [|mw sol IH]; intros a; [simpl; lia|].
  cbn [foldl]. rewrite IH, fmap_cons, sum_cons. lia.
Qed.

Lemma score_of_weights (ms : list Meld) (solution : list (list Piece * Z)) :
  Forall2 (λ m mw, mw.2 = m.2) ms solution →
  score_of solution = packing_weight ms.
Proof.
  unfold score_of, packing_weight. rewrite foldl_score.
  induction 1 as [|m mw ms sol Hw _ IH]; [done|].
  rewrite !fmap_cons, !sum_cons, Hw. lia.
Qed.

(** ** What holds of the shape and order of the candidates *)

(** A Set candidate has 3 or 4 members, weighs rank times size, and its
    non-joker members all carry the rank. *)
Lemma set_meld_size_rank ts m :
  m ∈ set_melds (solver_of_tiles ts) →
  (length m.1 = 3 ∨ length m.1 = 4)%nat ∧
  ∃ num, 1 <= num <= 13 ∧ m.2 = num * len m.1 ∧
    ∀ i t, i ∈ m.1 → ts !! i = Some t → type t ≠ okey → number t = Some num.
Proof.
  intros (num & Hnum & Hm)%elem_of_set_melds.
  apply elem_of_set_melds_of_num in Hm
    as (size & r & rc & jc & Hsize & Hr & Hrc & Hjc & ->).
  apply combinations_sublist in Hrc as [Hrc Hlrc].
  apply combinations_sublist in Hjc as [Hjc Hljc]. simpl in *.
  assert (Hlen : Z.of_nat (length (rc ++ jc)) = size).
  { rewrite length_app, Hlrc, Hljc. lia. }
  split; [lia|]. exists num. split; [done|]. split; [unfold len; by rewrite Hlen|].
  intros i t [Hi|Hi]%elem_of_app Ht Hty.
  - apply (sublist_subseteq _ _ Hrc) in Hi.
    apply elem_of_set_real_idxs in Hi as (t' & Ht' & _ & Hn). congruence.
  - apply (sublist_subseteq _ _ Hjc) in Hi.
    apply index_jokers_spec in Hi as (t' & Ht' & Hty'). congruence.
Qed.

(** The members of a Set candidate: real tiles in index order, then jokers
    in index order. *)
Lemma set_meld_order ts m :
  m ∈ set_melds (solver_of_tiles ts) →
  ∃ real_comb joker_comb,
    m.1 = real_comb ++ joker_comb ∧
    StronglySorted lt real_comb ∧ StronglySorted lt joker_comb ∧
    (∀ i, i ∈ real_comb → i ∈ index_non_jokers ts) ∧
    (∀ i, i ∈ joker_comb → i ∈ index_jokers ts).
Proof.
  intros (num & Hnum & Hm)%elem_of_set_melds.
  apply elem_of_set_melds_of_num in Hm
    as (size & r & rc & jc & _ & _ & Hrc & Hjc & ->).
  apply combinations_sublist in Hrc as [Hrc _].
  apply combinations_sublist in Hjc as [Hjc _]. simpl in *.
  exists rc, jc. split_and!; [done|..].
  - eapply StronglySorted_sublist; [done|apply set_real_idxs_sorted].
  - eapply StronglySorted_sublist; [done|apply index_jokers_sorted].
  - intros i Hi. apply (sublist_subseteq _ _ Hrc) in Hi.
    unfold set_real_idxs in Hi. by apply list_elem_of_filter in Hi as [_ Hi].
  - intros i Hi. by apply (sublist_subseteq _ _ Hjc) in Hi.
Qed.

Lemma StronglySorted_le_lt (l : list nat) :
  StronglySorted le l → NoDup l → StronglySorted lt l.
Proof.
  induction 1 as [|i l _ IH Hall]; intros Hnd; [constructor|].
  apply NoDup_cons in Hnd as [Hi Hnd]. constructor; [by apply IH|].
  rewrite Forall_forall in *. intros j Hj.
  specialize (Hall j Hj). assert (i ≠ j) by (by intros ->). lia.
Qed.

(** A Run candidate lists its indices in strictly increasing order. *)
Lemma run_meld_increasing ts m :
  m ∈ run_melds (solver_of_tiles ts) → StronglySorted lt m.1.
Proof.
  intros (c & L & s & _ & _ & _ & _ & Hm)%elem_of_run_melds.
  destruct (run_window_wf ts c L s m Hm) as [Hnd _].
  apply elem_of_run_window in Hm as (_ & _ & jc & _ & ->). simpl in *.
  apply StronglySorted_le_lt; [|done].
  unfold sorted. apply StronglySorted_merge_sort; apply _.
Qed.

(** With a single candidate of non-negative weight, selecting it is the
    optimum. *)
Lemma single_candidate_optimal (m : Meld) ntiles :
  0 <= m.2 → lp_optimal [m] ntiles [1].
Proof.
  intros Hw. split.
  - split_and!; [done|by repeat constructor; auto|].
    apply Forall_seq. intros t _. rewrite tile_once_lhs_cons.
    unfold tile_once_lhs. simpl. case_decide; lia.
  - intros y (Hlen & Hbin & _). destruct y as [|v [|? ?]]; simplify_eq/=.
    apply Forall_cons in Hbin as [Hv _]. rewrite !lp_objective_cons.
    unfold lp_objective. simpl. destruct Hv as [-> | ->]; lia.
Qed.

(** ** Subsequences of sorted index lists *)

Lemma combinations_complete {A} (l c : list A) :
  c `sublist_of` l → c ∈ combinations l (length c).
Proof.
  induction 1 as [|x c l _ IH|x c l Hs IH]; simpl.
  - by apply list_elem_of_singleton.
  - apply elem_of_app. left. by apply list_elem_of_fmap_2.
  - destruct c as [|y c]; simpl in *.
    + by apply list_elem_of_singleton.
    + apply elem_of_app. by right.
Qed.

Lemma elem_of_combinations {A} (l c : list A) r :
  c ∈ combinations l r ↔ c `sublist_of` l ∧ length c = r.
Proof.
  split; [apply combinations_sublist|].
  intros [Hs <-]. by apply combinations_complete.
Qed.

Lemma sorted_subseteq_sublist (l k : list nat) :
  StronglySorted lt l → StronglySorted lt k → l ⊆ k → l `sublist_of` k.
Proof.
  intros Hl Hk. revert l Hl.
  induction Hk as [|y k Hk IH Hy]; intros l Hl Hsub.
  { destruct l as [|x l]; [constructor|].
    specialize (Hsub x ltac:(left)). by apply elem_of_nil in Hsub. }
  destruct l as [|x l]; [apply sublist_nil_l|].
  apply StronglySorted_cons in Hl as [Hx Hl].
  rewrite Forall_forall in Hx, Hy.
  destruct (decide (x = y)) as [->|Hne].
  - apply sublist_skip, IH; [done|].
    intros z Hz. specialize (Hx z Hz).
    specialize (Hsub z ltac:(by right)).
    apply elem_of_cons in Hsub as [->|Hzk]; [lia|done].
  - apply sublist_cons, IH; [by apply StronglySorted_cons; rewrite Forall_forall|].
    assert (Hxk : x ∈ k).
    { specialize (Hsub x ltac:(left)).
      by apply elem_of_cons in Hsub as [?|?]. }
    specialize (Hy x Hxk).
    intros z [->|Hz]%elem_of_cons; [done|].
    specialize (Hx z Hz). specialize (Hsub z ltac:(by right)).
    apply elem_of_cons in Hsub as [->|Hzk]; [lia|done].
Qed.

(** The sorted sub-lists of a sorted list are its sorted lists of members. *)
Lemma sublist_sorted_iff (l k : list nat) :
  StronglySorted lt k →
  l `sublist_of` k ↔ StronglySorted lt l ∧ ∀ i, i ∈ l → i ∈ k.
Proof.
  intros Hk. split.
  - intros Hs. split; [by eapply StronglySorted_sublist|].
    by apply sublist_subseteq.
  - intros [Hl Hsub]. by apply sorted_subseteq_sublist.
Qed.

(** ** All 0/1 vectors *)

Lemma elem_of_binary_vectors n y :
  y ∈ binary_vectors n ↔ length y = n ∧ Forall (λ v, v = 0 ∨ v = 1) y.
Proof.
  revert y. induction n as [|n IH]; intros y; simpl.
  - rewrite list_elem_of_singleton. split.
    + intros ->. by split.
    + intros [Hlen _]. by destruct y.
  - rewrite elem_of_app, !list_elem_of_fmap. split.
    + intros [(y' & -> & Hy')|(y' & -> & Hy')]; apply IH in Hy' as [Hlen Hbin];
        (split; [by simpl; f_equal|constructor; auto]).
    + intros [Hlen Hbin]. destruct y as [|v y]; [done|].
      apply Forall_cons in Hbin as [Hv Hbin]. simpl in Hlen.
      assert (Hy : y ∈ binary_vectors n) by (apply IH; split; [lia|done]).
      destruct Hv as [-> | ->]; [left|right]; by exists y.
Qed.

Lemma exists_max_elem {A} (f : A → Z) (l : list A) :
  l ≠ [] → ∃ x, x ∈ l ∧ ∀ y, y ∈ l → f y <= f x.
Proof.
  induction l as [|a l IH]; [done|]. intros _.
  destruct l as [|b l].
  { exists a. split; [left|]. intros y ->%list_elem_of_singleton. lia. }
  destruct (IH ltac:(done)) as (x & Hx & Hmax).
  destruct (decide (f x <= f a)) as [Hle|Hgt].
  - exists a. split; [left|]. intros y [->|Hy]%elem_of_cons; [lia|].
    specialize (Hmax y Hy). lia.
  - exists x. split; [by right|]. intros y [->|Hy]%elem_of_cons; [lia|].
    by apply Hmax.
Qed.

Lemma zero_assignment_feasible melds ntiles :
  lp_feasible melds ntiles (replicate (length melds) 0) ∧
  chosen melds (replicate (length melds) 0) = [].
Proof.
  assert (Hch : chosen melds (replicate (length melds) 0) = []).
  { induction melds as [|m melds IH]; [done|]. simpl.
    by rewrite chosen_cons, decide_False. }
  assert (Hbin : Forall (λ v, v = 0 ∨ v = 1) (replicate (length melds) 0)).
  { apply Forall_replicate. by left. }
  split; [|done]. split_and!; [by rewrite length_replicate|done|].
  apply Forall_seq. intros t _.
  rewrite tile_once_lhs_usage, Hch by done. unfold usage. simpl. lia.
Qed.

(** The 0/1 program of [solve] is feasible and finite, so it has an
    optimum. *)
Lemma lp_optimal_exists melds ntiles : ∃ x, lp_optimal melds ntiles x.
Proof.
  destruct (exists_max_elem (lp_objective melds)
              (filter (lp_feasible melds ntiles) (binary_vectors (length melds))))
    as (x & Hx & Hmax).
  { intros Hnil.
    eapply (filter_nil_not_elem_of _ _ (replicate (length melds) 0)) in Hnil.
    - apply Hnil. apply elem_of_binary_vectors.
      split; [by rewrite length_replicate|]. apply Forall_replicate. by left.
    - apply zero_assignment_feasible. }
  apply list_elem_of_filter in Hx as [Hfeas _].
  exists x. split; [done|]. intros y Hy. apply Hmax.
  apply list_elem_of_filter. split; [done|].
  apply elem_of_binary_vectors. by destruct Hy as (? & ? & _).
Qed.

(** ** The Set pass, soundly and completely *)

Lemma set_melds_exactly ts m :
  m ∈ set_melds (solver_of_tiles ts) ↔
  ∃ num real_comb joker_comb,
    1 <= num <= 13 ∧
    StronglySorted lt real_comb ∧ StronglySorted lt joker_comb ∧
    (∀ i, i ∈ real_comb →
       ∃ t, ts !! i = Some t ∧ type t ≠ okey ∧ number t = Some num) ∧
    (∀ i, i ∈ joker_comb → ∃ t, ts !! i = Some t ∧ type t = okey) ∧
    (1 ≤ length real_comb)%nat ∧
    (length real_comb + length joker_comb = 3 ∨
     length real_comb + length joker_comb = 4)%nat ∧
    m = (real_comb ++ joker_comb,
         num * Z.of_nat (length real_comb + length joker_comb)).
Proof.
  rewrite elem_of_set_melds. split.
  - intros (num & Hnum & Hm).
    apply elem_of_set_melds_of_num in Hm
      as (size & r & rc & jc & Hsize & Hr & Hrc & Hjc & ->).
    apply elem_of_combinations in Hrc as [Hrc Hlrc].
    apply elem_of_combinations in Hjc as [Hjc Hljc]. simpl in Hjc.
    apply sublist_sorted_iff in Hrc as [Hsrc Hrc]; [|apply set_real_idxs_sorted].
    apply sublist_sorted_iff in Hjc as [Hsjc Hjc]; [|apply index_jokers_sorted].
    exists num, rc, jc.
    split; [done|]. split; [done|]. split; [done|].
    split; [intros i Hi; by apply elem_of_set_real_idxs, Hrc|].
    split; [intros i Hi; by apply index_jokers_spec, Hjc|].
    split; [lia|]. split; [lia|]. do 2 f_equal. lia.
  - intros (num & rc & jc & Hnum & Hsrc & Hsjc & Hrc & Hjc & Hr & Hsize & ->).
    exists num. split; [done|].
    assert (Hrc' : rc `sublist_of` set_real_idxs (solver_of_tiles ts) num).
    { apply sublist_sorted_iff; [apply set_real_idxs_sorted|]. split; [done|].
      intros i Hi. by apply elem_of_set_real_idxs, Hrc. }
    assert (Hjc' : jc `sublist_of` index_jokers ts).
    { apply sublist_sorted_iff; [apply index_jokers_sorted|]. split; [done|].
      intros i Hi. by apply index_jokers_spec, Hjc. }
    pose proof (sublist_length _ _ Hrc') as Hlr.
    pose proof (sublist_length _ _ Hjc') as Hlj.
    apply elem_of_set_melds_of_num.
    exists (Z.of_nat (length rc + length jc)), (Z.of_nat (length rc)), rc, jc.
    unfold len. simpl. split_and!; try lia.
    + apply elem_of_combinations. split; [done|lia].
    + apply elem_of_combinations. split; [done|lia].
    + done.
Qed.

(** ** The shape of a Run candidate *)

Lemma run_window_shape ts c L s m :
  0 <= L → m ∈ run_window (solver_of_tiles ts) c L s →
  Z.of_nat (length m.1) = L ∧
  StronglySorted lt m.1 ∧
  (∀ i t, i ∈ m.1 → ts !! i = Some t → type t ≠ okey →
     color t = c ∧ ∃ n, number t = Some n ∧ s <= n < s + L) ∧
  (∀ i i' t t', i ∈ m.1 → i' ∈ m.1 → ts !! i = Some t → ts !! i' = Some t' →
     type t ≠ okey → type t' ≠ okey → number t = number t' → i = i') ∧
  (∃ i t, i ∈ m.1 ∧ ts !! i = Some t ∧ type t ≠ okey).
Proof.
  intros HL Hm.
  destruct (run_window_wf ts c L s m Hm) as [Hnd _].
  pose proof (len_run_real_idxs (solver_of_tiles ts) c L s HL) as Hlen.
  pose proof (len_nonneg (missing_ranks (solver_of_tiles ts) c L s)) as Hmiss.
  apply elem_of_run_window in Hm as (_ & Hone & jc & Hjc & ->).
  apply combinations_sublist in Hjc as [Hjc Hljc]. simpl in Hjc, Hnd. simpl.
  assert (Hmem : ∀ i t, i ∈ sorted (run_real_idxs (solver_of_tiles ts) c L s ++ jc) →
            ts !! i = Some t → type t ≠ okey →
            ∃ n, s <= n < s + L ∧
                 num_to_idx (solver_of_tiles ts) c !! Some n = Some i).
  { intros i t Hi Ht Hty. unfold sorted in Hi.
    rewrite merge_sort_Permutation in Hi.
    apply elem_of_app in Hi as [Hi|Hi]; [by apply elem_of_run_real_idxs|].
    apply (sublist_subseteq _ _ Hjc), index_jokers_spec in Hi as (t' & Ht' & Hty').
    congruence. }
  split_and!.
  - unfold sorted. rewrite merge_sort_Permutation, length_app, Hljc.
    unfold len in *. lia.
  - apply StronglySorted_le_lt; [|done].
    unfold sorted. apply StronglySorted_merge_sort; apply _.
  - intros i t Hi Ht Hty. destruct (Hmem i t Hi Ht Hty) as (n & Hn & Hlk).
    apply num_to_idx_Some in Hlk as [(t' & Ht' & _ & Hc & Hnum) _].
    simpl in Ht'. simplify_eq. split; [done|]. by exists n.
  - intros i i' t t' Hi Hi' Ht Ht' Hty Hty' Hnum.
    destruct (Hmem i t Hi Ht Hty) as (n & _ & Hlk).
    destruct (Hmem i' t' Hi' Ht' Hty') as (n' & _ & Hlk').
    pose proof Hlk as Hlk0. pose proof Hlk' as Hlk0'.
    apply num_to_idx_Some in Hlk as [(t0 & Ht0 & _ & _ & Hn) _].
    apply num_to_idx_Some in Hlk' as [(t0' & Ht0' & _ & _ & Hn') _].
    simpl in Ht0, Ht0'. simplify_eq. congruence.
  - destruct (run_real_idxs (solver_of_tiles ts) c L s) as [|i l] eqn:Heq.
    { unfold len in Hone. simpl in Hone. lia. }
    assert (Hi : i ∈ run_real_idxs (solver_of_tiles ts) c L s)
      by (rewrite Heq; left).
    apply run_real_idxs_real in Hi as (t & Ht & Hty & _).
    exists i, t. split_and!; [|done..].
    unfold sorted. rewrite merge_sort_Permutation. left.
Qed.

(** Every candidate: at least three tiles, a real one among them, and a
    weight between 3 and 13 per tile. *)
Lemma candidate_bounds ts m :
  m ∈ _enumerate_melds (solver_of_tiles ts) →
  (3 ≤ length m.1 ≤ 13)%nat ∧
  (∃ i t, i ∈ m.1 ∧ ts !! i = Some t ∧ type t ≠ okey) ∧
  3 <= m.2 <= 13 * len m.1.
Proof.
  intros [Hm|Hm]%elem_of_enumerate_melds.
  - apply set_melds_exactly in Hm
      as (num & rc & jc & Hnum & _ & _ & Hrc & _ & Hr & Hsize & ->). simpl.
    unfold len. rewrite length_app. split_and!; [lia|lia| |nia|nia].
    destruct rc as [|i rc]; [simpl in Hr; lia|].
    destruct (Hrc i ltac:(left)) as (t & Ht & Hty & _).
    exists i, t. split_and!; [by left|done..].
  - apply elem_of_run_melds in Hm as (c & L & s & _ & HL & Hs1 & Hs2 & Hm).
    destruct (run_window_shape ts c L s m ltac:(lia) Hm)
      as (Hlen & _ & _ & _ & Hreal).
    apply elem_of_run_window in Hm as (_ & _ & jc & _ & Hm).
    assert (Hw : 2 * m.2 = L * (2 * s + L - 1)).
    { rewrite Hm. simpl. apply sum_range. lia. }
    unfold len. split_and!; [lia|lia|done|nia|nia].
Qed.

(** ** Sizes and weights of a packing *)

Lemma NoDup_lt_length (l : list nat) n :
  NoDup l → (∀ i, i ∈ l → (i < n)%nat) → (length l ≤ n)%nat.
Proof.
  intros Hnd Hlt. rewrite <-(length_seq n 0%nat).
  apply submseteq_length, NoDup_submseteq; [done|].
  intros i Hi. apply elem_of_seq. specialize (Hlt i Hi). lia.
Qed.

Lemma nil_or_elem {A} (l : list A) : l = [] ∨ ∃ x, x ∈ l.
Proof. destruct l as [|x l]; [by left|right]. exists x. left. Qed.

Lemma packing_bounds (ms : list Meld) :
  (∀ m, m ∈ ms → (3 ≤ length m.1)%nat ∧ 3 <= m.2 <= 13 * len m.1) →
  (3 * length ms ≤ length (mjoin ms.*1))%nat ∧
  3 * len ms <= packing_weight ms <= 13 * len (mjoin ms.*1).
Proof.
  induction ms as [|m ms IH]; intros H.
  { unfold packing_weight, len. simpl. lia. }
  destruct (H m ltac:(left)) as (Hlen & Hw).
  destruct IH as (IH1 & IH2); [intros m' Hm'; apply H; by right|].
  rewrite packing_weight_cons, fmap_cons. unfold len in *. simpl.
  rewrite length_app. split; lia.
Qed.

Lemma chosen_bounds ts x m :
  m ∈ chosen (_enumerate_melds (solver_of_tiles ts)) x →
  (3 ≤ length m.1)%nat ∧ 3 <= m.2 <= 13 * len m.1.
Proof.
  intros Hm. apply (sublist_subseteq _ _ (chosen_sublist _ x)) in Hm.
  destruct (candidate_bounds ts m Hm) as (Hlen & _ & Hw). split; [lia|done].
Qed.

(** A feasible assignment uses every tile at most once over all the chosen
    melds. *)
Lemma lp_feasible_tiles_once ts x :
  lp_feasible (_enumerate_melds (solver_of_tiles ts)) (length ts) x →
  (length (mjoin (chosen (_enumerate_melds (solver_of_tiles ts)) x).*1)
   ≤ length ts)%nat.
Proof.
  intros Hfeas. apply NoDup_lt_length.
  - apply NoDup_join_disjoint.
    + eapply lp_feasible_disjoint; [|done]. intros m. apply enumerate_melds_wf.
    + intros m Hm. apply (sublist_subseteq _ _ (chosen_sublist _ x)) in Hm.
      by destruct (enumerate_melds_wf ts m Hm).
  - intros i (l & Hil & Hl)%list_elem_of_join.
    apply list_elem_of_fmap in Hl as (m & -> & Hm).
    apply (sublist_subseteq _ _ (chosen_sublist _ x)) in Hm.
    destruct (enumerate_melds_wf ts m Hm) as [_ Hlt]. by apply Hlt.
Qed.

Lemma solve_score ts x :
  ∃ solution,
    solve (solver_of_tiles ts) (Return x) = Return solution ∧
    length solution = length (chosen (_enumerate_melds (solver_of_tiles ts)) x) ∧
    score_of solution
    = packing_weight (chosen (_enumerate_melds (solver_of_tiles ts)) x) ∧
    Forall2 (λ m mw, length mw.1 = length m.1 ∧ mw.2 = m.2)
      (chosen (_enumerate_melds (solver_of_tiles ts)) x) solution.
Proof.
  destruct (solve_Return ts x) as (sol & Hsol & Hrel).
  exists sol. split_and!; [done| | |].
  - symmetry. by eapply Forall2_length.
  - apply score_of_weights. eapply Forall2_impl; [done|]. by intros ?? [_ ?].
  - eapply Forall2_impl; [done|]. intros m mw [Hps Hw]. split; [|done].
    symmetry. by eapply Forall2_length.
Qed.

(** A single candidate is a feasible selection. *)
Lemma single_candidate_feasible melds ntiles m :
  m ∈ melds →
  ∃ y, lp_feasible melds ntiles y ∧ lp_objective melds y = m.2.
Proof.
  intros (l1 & l2 & ->)%list_elem_of_split.
  destruct (disjoint_lp_feasible (l1 ++ m :: l2) ntiles [m]) as (y & Hy & Hobj).
  - apply sublist_inserts_l. constructor. apply sublist_nil_l.
  - intros [|a] [|b] ma mb Hab Ha Hb; simplify_eq/=.
  - exists y. split; [done|]. rewrite Hobj. unfold packing_weight. simpl. lia.
Qed.

Lemma hand_run_optimal :
  lp_optimal (_enumerate_melds (OkeyILPSolver_init hand_run (Some "red"%string) (Some 9)))
    (length (tiles (OkeyILPSolver_init hand_run (Some "red"%string) (Some 9)))) [0; 1].
Proof.
  assert (Hmelds :
    _enumerate_melds (OkeyILPSolver_init hand_run (Some "red"%string) (Some 9))
    = [([0; 1; 2]%nat, 21); ([0; 1; 2]%nat, 24)]) by (vm_compute; reflexivity).
  rewrite Hmelds. split.
  - apply (bool_decide_unpack _). vm_compute. exact I.
  - intros y (Hlen & Hbin & Hc).
    destruct y as [|a [|b [|? ?]]]; try discriminate Hlen.
    apply Forall_cons in Hbin as [Ha Hbin]. apply Forall_cons in Hbin as [Hb _].
    apply Forall_cons in Hc as [H0 _].
    rewrite !tile_once_lhs_cons in H0.
    rewrite !decide_True in H0 by (cbn; left).
    change (tile_once_lhs [] [] 0%nat) with 0 in H0.
    rewrite !lp_objective_cons. change (lp_objective [] []) with 0.
    cbn [snd]. lia.
Qed.

(** ** Candidates and structurally valid melds *)

Lemma NoDup_full (l : list nat) n k :
  NoDup l → (∀ i, i ∈ l → (i < n)%nat) → (n ≤ length l)%nat → (k < n)%nat → k ∈ l.
Proof.
  intros Hnd Hlt Hlen Hk. destruct (decide (k ∈ l)) as [|Hnot]; [done|]. exfalso.
  assert (Hle : (length (k :: l) ≤ n)%nat).
  { apply NoDup_lt_length; [by constructor|].
    intros i [->|Hi]%elem_of_cons; [done|by apply Hlt]. }
  simpl in Hle. lia.
Qed.

Lemma spec_valid_meld_length ts idxs :
  spec_valid_meld ts idxs →
  NoDup idxs ∧ (∀ i, i ∈ idxs → (i < length ts)%nat) ∧ (3 ≤ length idxs)%nat.
Proof.
  intros [(Hnd & Hlt & Hlen & _)|(Hnd & Hlt & c & L & s & HL & _ & _ & Hlen & _)];
    split_and!; try done; lia.
Qed.

(** On a hand without duplicate tiles, every candidate is a valid meld. *)
Lemma candidate_valid ts m :
  no_duplicate_tiles ts → m ∈ _enumerate_melds (solver_of_tiles ts) →
  spec_valid_meld ts m.1.
Proof.
  intros Hdup Hm. destruct (enumerate_melds_wf ts m Hm) as [Hnd Hlt].
  apply elem_of_enumerate_melds in Hm as [Hm|Hm].
  - left. destruct (set_meld_size_rank ts m Hm) as (Hsize & num & Hnum & _ & Hrank).
    split_and!; [done..| |].
    + exists num. by split.
    + intros i j ti tj Hi Hj Hij Hti Htj Hyi Hyj Hc.
      apply (Hdup i j ti tj Hij Hti Htj Hyi Hyj). split; [done|].
      rewrite (Hrank i ti Hi Hti Hyi), (Hrank j tj Hj Htj Hyj). done.
  - right. apply elem_of_run_melds in Hm as (c & L & s & _ & HL & Hs1 & Hs2 & Hm).
    destruct (run_window_shape ts c L s m ltac:(lia) Hm)
      as (Hlen & _ & Hmem & Hinj & _).
    split_and!; [done..|]. exists c, L, s. split_and!; try done; try lia.
    intros i j ti tj Hi Hj Hij Hti Htj Hyi Hyj Hn.
    apply Hij. by apply (Hinj i j ti tj).
Qed.

Lemma no_valid_meld_no_candidates ts :
  no_duplicate_tiles ts → no_valid_meld ts →
  _enumerate_melds (solver_of_tiles ts) = [].
Proof.
  intros Hdup Hno.
  destruct (nil_or_elem (_enumerate_melds (solver_of_tiles ts))) as [|[m Hm]];
    [done|].
  destruct (Hno m.1). by apply candidate_valid.
Qed.

(** ** Optima of hands of fewer than six tiles: at most one meld fits *)

Lemma small_hand_optimal ts x :
  (length ts < 6)%nat →
  lp_feasible (_enumerate_melds (solver_of_tiles ts)) (length ts) x →
  (∀ m, m ∈ _enumerate_melds (solver_of_tiles ts) →
        m.2 <= lp_objective (_enumerate_melds (solver_of_tiles ts)) x) →
  lp_optimal (_enumerate_melds (solver_of_tiles ts)) (length ts) x.
Proof.
  intros Hsmall Hfeas Hmax. split; [done|]. intros y Hy.
  pose proof (lp_feasible_tiles_once ts y Hy) as Huse.
  destruct (packing_bounds (chosen (_enumerate_melds (solver_of_tiles ts)) y))
    as (Hcount & _); [apply chosen_bounds|].
  destruct (packing_bounds (chosen (_enumerate_melds (solver_of_tiles ts)) x))
    as (_ & Hx & _); [apply chosen_bounds|].
  pose proof (len_nonneg (chosen (_enumerate_melds (solver_of_tiles ts)) x)) as Hnn.
  rewrite (lp_objective_chosen _ y) by apply Hy.
  pose proof (chosen_sublist (_enumerate_melds (solver_of_tiles ts)) y) as Hsub.
  destruct (chosen (_enumerate_melds (solver_of_tiles ts)) y) as [|m [|m' l]].
  - rewrite (lp_objective_chosen _ x) by apply Hfeas.
    unfold packing_weight at 1. simpl. lia.
  - rewrite packing_weight_cons. unfold packing_weight. simpl.
    rewrite Z.add_0_r. apply Hmax. apply (sublist_subseteq _ _ Hsub). left.
  - cbn [length] in Hcount. lia.
Qed.

(** * The claims *)

Section Claims.
Variables (pieces : list PieceDict).
Variables (okey_color : option string) (okey_number : option Z).
Local Abbreviation hand := (OkeyILPSolver_init pieces okey_color okey_number).

(** C6. For every hand, color [c], window length [L] in 3..13 and start [s]
    with the window inside 1..13, the Run pass yields a candidate for the
    window exactly when the number of window ranks without a real tile of
    color [c] is at most the joker count and some window rank has a real tile
    of color [c]; every candidate of the window is in the enumerator's output
    and weighs the sum of the window's ranks, [L*(2s+L-1)/2], whatever jokers
    fill it. *)
Theorem run_window_generated (c : option string) (L s : Z) :
  3 <= L <= 13 → 1 <= s → s + L <= 14 →
  (run_window hand c L s ≠ [] ↔
     len (missing_ranks hand c L s) <= joker_count hand ∧
     ∃ n, s <= n < s + L ∧ has_real hand c n) ∧
  (∀ m, m ∈ run_window hand c L s →
     m ∈ _enumerate_melds hand ∧
     m.2 = sum (range s (s + L)) ∧ 2 * m.2 = L * (2 * s + L - 1)).
Proof.
  intros HL Hs1 Hs2. unfold OkeyILPSolver_init.
  set (self := solver_of_tiles _). split.
  - assert (HW : len (joker_indices self) = joker_count self)
      by apply len_joker_indices.
    rewrite <-HW, <-run_real_idxs_nonempty.
    pose proof (len_run_real_idxs self c L s ltac:(lia)) as Hlen.
    pose proof (len_nonneg (run_real_idxs self c L s)) as Hnn.
    unfold run_window. case_decide as Hd.
    + split; [intros _; lia|intros _].
      destruct (combinations (joker_indices self)
                  (Z.to_nat (L - len (run_real_idxs self c L s)))) as [|jc l] eqn:Hc.
      * exfalso. apply combinations_nonempty in Hc; [done|].
        unfold len in *. lia.
      * done.
    + split; [done|]. intros [? ?]. exfalso. apply Hd. lia.
  - intros m Hm. split; [by apply (run_window_in_enumerate _ c L s)|].
    apply elem_of_run_window in Hm as (_ & _ & jc & _ & ->). simpl.
    split; [done|]. apply sum_range. lia.
Qed.

(** C1. If the optimizer returns an exact optimum [x] of the 0/1 program,
    [solve] returns, the total score (the sum of the returned weights) is the
    weight of the chosen candidates, these form a collection of candidates
    that is index-disjoint position by position, and no index-disjoint
    collection of candidates weighs more. *)
Theorem solve_optimal (x : list Z) :
  lp_optimal (_enumerate_melds hand) (length (tiles hand)) x →
  ∃ solution,
    solve hand (Return x) = Return solution ∧
    score_of solution = packing_weight (chosen (_enumerate_melds hand) x) ∧
    chosen (_enumerate_melds hand) x `sublist_of` _enumerate_melds hand ∧
    index_disjoint (chosen (_enumerate_melds hand) x) ∧
    ∀ sel, sel `sublist_of` _enumerate_melds hand → index_disjoint sel →
           packing_weight sel <= score_of solution.
Proof.
  unfold OkeyILPSolver_init. set (ts := _ <$> pieces).
  change (tiles (solver_of_tiles ts)) with ts.
  intros [Hfeas Hopt].
  destruct (solve_Return ts x) as (sol & Hsol & Hrel).
  assert (Hscore : score_of sol
                   = packing_weight (chosen (_enumerate_melds (solver_of_tiles ts)) x)).
  { apply score_of_weights. eapply Forall2_impl; [done|]. by intros ?? [_ ?]. }
  exists sol. split_and!; [done|done|apply chosen_sublist|..].
  - eapply lp_feasible_disjoint; [|done]. intros m. apply enumerate_melds_wf.
  - intros sel Hsub Hdis.
    destruct (disjoint_lp_feasible _ (length ts) sel Hsub Hdis) as (y & Hy & <-).
    rewrite Hscore, <-lp_objective_chosen by apply Hfeas. by apply Hopt.
Qed.

(** C4. For a feasible assignment [x], melds at different positions of the
    returned result use disjoint tile indices, and the joker indices used
    over all returned melds are no more than the jokers of the hand. *)
Theorem solution_disjoint (x : list Z) :
  lp_feasible (_enumerate_melds hand) (length (tiles hand)) x →
  ∃ solution,
    solve hand (Return x) = Return solution ∧
    Forall2 (λ m mw, Forall2 (λ i p, tiles hand !! i = Some p) m.1 mw.1 ∧ mw.2 = m.2)
      (chosen (_enumerate_melds hand) x) solution ∧
    index_disjoint (chosen (_enumerate_melds hand) x) ∧
    jokers_used hand (chosen (_enumerate_melds hand) x) <= joker_count hand.
Proof.
  unfold OkeyILPSolver_init. set (ts := _ <$> pieces).
  change (tiles (solver_of_tiles ts)) with ts.
  intros Hfeas.
  destruct (solve_Return ts x) as (sol & Hsol & Hrel).
  assert (Hdis : index_disjoint (chosen (_enumerate_melds (solver_of_tiles ts)) x)).
  { eapply lp_feasible_disjoint; [|done]. intros m. apply enumerate_melds_wf. }
  exists sol. split_and!; [done..|].
  rewrite <-len_joker_indices. unfold jokers_used, len.
  apply inj_le, submseteq_length, NoDup_submseteq.
  - apply NoDup_filter, NoDup_join_disjoint; [done|].
    intros m Hm. apply (sublist_subseteq _ _ (chosen_sublist _ x)) in Hm.
    by destruct (enumerate_melds_wf ts m Hm).
  - by intros i [Hi _]%list_elem_of_filter.
Qed.

(** C10. If a non-joker tile at index [i] has the color and rank of a
    non-joker tile at a larger index, no Run candidate contains [i].  The Set
    pass still uses [i]: it is among the real tiles of its rank [n], and for
    [n] in 1..13 every increasing choice of real tiles of rank [n] that
    contains [i], followed by an increasing choice of jokers, 3 or 4 tiles in
    all, is a Set candidate. *)
Theorem run_excludes_lower_duplicate (i j : nat) (ti tj : Piece) :
  tiles hand !! i = Some ti → tiles hand !! j = Some tj → (i < j)%nat →
  type ti ≠ okey → type tj ≠ okey →
  color ti = color tj → number ti = number tj →
  (∀ m, m ∈ run_melds hand → i ∉ m.1) ∧
  (∀ n, number ti = Some n → i ∈ set_real_idxs hand n) ∧
  (∀ n real_comb joker_comb,
     number ti = Some n → 1 <= n <= 13 → i ∈ real_comb →
     StronglySorted lt real_comb → StronglySorted lt joker_comb →
     (∀ k, k ∈ real_comb → k ∈ set_real_idxs hand n) →
     (∀ k, k ∈ joker_comb → k ∈ joker_indices hand) →
     (length real_comb + length joker_comb = 3 ∨
      length real_comb + length joker_comb = 4)%nat →
     (real_comb ++ joker_comb, n * Z.of_nat (length real_comb + length joker_comb))
       ∈ set_melds hand).
Proof.
  unfold OkeyILPSolver_init. set (ts := _ <$> pieces).
  change (tiles (solver_of_tiles ts)) with ts.
  intros Hi Hj Hij Hti Htj Hc Hn. split_and!.
  - intros m (c & L & s & _ & _ & _ & _ & Hm)%elem_of_run_melds Him.
    apply elem_of_run_window in Hm as (_ & _ & jc & Hjc & ->).
    unfold sorted in Him. simpl in Him.
    rewrite merge_sort_Permutation in Him.
    apply elem_of_app in Him as [Him|Him].
    + apply elem_of_run_real_idxs in Him as (n & _ & Hlk).
      apply num_to_idx_Some in Hlk as [(t & Ht & _ & Hct & Hnt) Hlast].
      simpl in Ht, Hlast. simplify_eq.
      apply (Hlast j tj Hij Hj). split_and!; [done|congruence..].
    + apply combinations_sublist in Hjc as [Hjc _].
      apply (sublist_subseteq _ _ Hjc) in Him.
      apply index_jokers_spec in Him as (t & Ht & Hty). congruence.
  - intros n Hnum. apply elem_of_set_real_idxs. eauto.
  - intros n rc jc Hnum Hrange Hin Hsrc Hsjc Hrc Hjc Hsize.
    apply set_melds_exactly. exists n, rc, jc.
    split; [done|]. split; [done|]. split; [done|].
    split; [intros k Hk; by apply elem_of_set_real_idxs, Hrc|].
    split; [intros k Hk; by apply index_jokers_spec, Hjc|].
    split; [|done]. destruct rc; [by apply elem_of_nil in Hin|simpl; lia].
Qed.

End Claims.

(** C5. Tile resolution keeps the length and the order of the input: the
    tile at each position comes from the descriptor at that position; a
    normal descriptor keeps its color and rank, a Joker marker takes the
    indicator's color [c] and rank [r], a FakeJoker marker takes color [c]
    and rank [(r mod 13) + 1]. *)
Theorem tile_resolution (pieces : list PieceDict) (c : string) (r : Z) :
  length (tiles (OkeyILPSolver_init pieces (Some c) (Some r))) = length pieces ∧
  ∀ i p, pieces !! i = Some p →
    ∃ t, tiles (OkeyILPSolver_init pieces (Some c) (Some r)) !! i = Some t ∧
      (d_color p = "okey"%string → t = mkPiece okey (Some c) (Some r)) ∧
      (d_color p = "fake_okey"%string →
         t = mkPiece fake_okey (Some c) (Some (r `mod` 13 + 1))) ∧
      (d_color p ≠ "okey"%string → d_color p ≠ "fake_okey"%string →
         t = mkPiece piece (Some (d_color p)) (d_number p)).
Proof.
  unfold OkeyILPSolver_init. simpl. split; [apply length_fmap|].
  intros i p Hp. rewrite list_lookup_fmap, Hp. simpl.
  eexists. split; [done|]. unfold Piece_init.
  split_and!.
  - intros ->. done.
  - intros ->. done.
  - intros H1 H2. by rewrite !decide_False by done.
Qed.

(** The window 7..9 of the hand [red 7, red 8, Joker]. *)
Lemma run_window_generated_witness :
  (run_window (OkeyILPSolver_init hand_run (Some "red"%string) (Some 9))
     (Some "red"%string) 3 7 ≠ [] ↔
   len (missing_ranks (OkeyILPSolver_init hand_run (Some "red"%string) (Some 9))
          (Some "red"%string) 3 7)
     <= joker_count (OkeyILPSolver_init hand_run (Some "red"%string) (Some 9)) ∧
   ∃ n, 7 <= n < 7 + 3 ∧
        has_real (OkeyILPSolver_init hand_run (Some "red"%string) (Some 9))
          (Some "red"%string) n) ∧
  (∀ m, m ∈ run_window (OkeyILPSolver_init hand_run (Some "red"%string) (Some 9))
             (Some "red"%string) 3 7 →
     m ∈ _enumerate_melds (OkeyILPSolver_init hand_run (Some "red"%string) (Some 9)) ∧
     m.2 = sum (range 7 (7 + 3)) ∧ 2 * m.2 = 3 * (2 * 7 + 3 - 1)).
Proof.
  apply (run_window_generated hand_run (Some "red"%string) (Some 9)
           (Some "red"%string) 3 7); lia.
Defined.

Lemma request_solver_tiles request :
  request_solver request =
  solver_of_tiles
    ((λ p, Piece_init (d_color p) (d_number p)
             (Some (okey_color request)) (Some (okey_number request)))
       <$> ((λ p, mkPieceDict (pd_color p) (pd_number p)) <$> pieces request)).
Proof. done. Qed.

Lemma solve_no_candidates self x :
  _enumerate_melds self = [] → solve self (Return x) = Return [].
Proof. intros Hnil. unfold solve, extract. by rewrite Hnil, chosen_nil_l. Qed.

Lemma solve_okey_hand_Return request x :
  ∃ solution,
    solve (request_solver request) (Return x) = Return solution ∧
    solve_okey_hand request (Return x) = inl (build_response solution).
Proof.
  rewrite request_solver_tiles.
  destruct (solve_Return
              ((λ p, Piece_init (d_color p) (d_number p)
                       (Some (okey_color request)) (Some (okey_number request)))
                 <$> ((λ p, mkPieceDict (pd_color p) (pd_number p)) <$> pieces request)) x)
    as (sol & Hsol & _).
  exists sol. split; [done|]. unfold solve_okey_hand.
  by rewrite request_solver_tiles, Hsol.
Qed.

(** When the enumerator finds no candidate for a hand, solving is not an
    error: whatever values the optimizer call leaves, [solve] returns the
    empty meld list, its total is 0, and the handler answers a request for
    that hand with no melds and total score 0. *)
Lemma no_candidates_empty_result (hand : list PieceDict)
    (indicator_color : option string) (indicator_number : option Z) (x : list Z) :
  _enumerate_melds (OkeyILPSolver_init hand indicator_color indicator_number) = [] →
  chosen (_enumerate_melds (OkeyILPSolver_init hand indicator_color indicator_number)) x
  = [] ∧
  solve (OkeyILPSolver_init hand indicator_color indicator_number) (Return x)
  = Return [] ∧
  score_of [] = 0 ∧
  ∀ request,
    request_solver request = OkeyILPSolver_init hand indicator_color indicator_number →
    solve_okey_hand request (Return x) = inl (mkOkeyResponse [] 0 false 0 0).
Proof.
  intros Hnil. split_and!.
  - by rewrite Hnil, chosen_nil_l.
  - by apply solve_no_candidates.
  - done.
  - intros request Hreq. unfold solve_okey_hand.
    by rewrite Hreq, solve_no_candidates.
Qed.

(** [red 1, blue 9, black 3]: no candidate, an empty answer. *)
Lemma no_candidates_empty_result_witness :
  _enumerate_melds (request_solver request_none) = [] ∧
  solve (request_solver request_none) (Return []) = Return [] ∧
  solve_okey_hand request_none (Return []) = inl (mkOkeyResponse [] 0 false 0 0).
Proof.
  assert (Hnil : _enumerate_melds (request_solver request_none) = [])
    by (vm_compute; reflexivity).
  destruct (no_candidates_empty_result
              ((λ p, mkPieceDict (pd_color p) (pd_number p)) <$> pieces request_none)
              (Some (okey_color request_none)) (Some (okey_number request_none))
              [] Hnil) as (_ & Hsolve & _ & Hresp).
  split_and!; [exact Hnil|exact Hsolve|]. apply Hresp. reflexivity.
Defined.

(** The handler does not call [Piece.__str__]; the two renderings differ on
    FakeJoker tiles only. *)
Lemma piece_str_Piece_str (p : Piece) :
  type p ≠ fake_okey → piece_str p = Piece_str p.
Proof. unfold piece_str, Piece_str. by destruct (type p). Qed.

(** C8. In the response, the token of a Joker tile is the literal [JOKER]
    whatever its resolved color and rank; the token of any other tile is its
    resolved color, a space and its resolved rank, which for a FakeJoker are
    the indicator's color and the indicator's rank mod 13 plus 1. *)
Theorem rendered_tokens (request : OkeyRequest) (x : list Z) :
  ∃ response,
    solve_okey_hand request (Return x) = inl response ∧
    Forall2 (λ m mr,
        value mr = m.2 ∧
        Forall2 (λ idx tok,
            ∃ t, tiles (request_solver request) !! idx = Some t ∧
              (type t = okey → tok = "JOKER"%string) ∧
              (type t ≠ okey →
                 tok = (str_opt_str (color t) +:+ " " +:+ str_opt_int (number t))%string) ∧
              (type t = fake_okey →
                 tok = (okey_color request +:+ " " +:+
                        str_int (okey_number request `mod` 13 + 1))%string))
          m.1 (mr_pieces mr))
      (chosen (_enumerate_melds (request_solver request)) x) (melds response).
Proof.
  rewrite request_solver_tiles. set (ts := _ <$> (_ <$> pieces request)).
  destruct (solve_Return ts x) as (sol & Hsol & Hrel).
  exists (build_response sol). split.
  { unfold solve_okey_hand. rewrite request_solver_tiles. fold ts. by rewrite Hsol. }
  unfold build_response. simpl. apply Forall2_fmap_r.
  eapply Forall2_impl; [exact Hrel|]. intros m mw [Hps Hw]. simpl.
  split; [done|]. apply Forall2_fmap_r.
  eapply Forall2_impl; [exact Hps|]. intros idx t Ht. simpl.
  exists t. split; [done|]. unfold piece_str. split_and!.
  - by intros ->.
  - by destruct (type t).
  - intros Hty. rewrite Hty.
    unfold ts in Ht. rewrite list_lookup_fmap in Ht.
    destruct ((_ <$> pieces request) !! idx) as [p|]; [|done].
    simpl in Ht. injection Ht as <-. revert Hty. unfold Piece_init.
    repeat case_decide; simpl; done.
Qed.

(** C3, as the code has it.  A rank outside 1..13 or an unknown color is
    not a validation failure: for every request, every descriptor whose color
    is not the Joker or the FakeJoker marker is resolved into a normal tile
    with that color and that rank unchanged, whatever they are, enumeration
    and solving run, and the handler answers with a success response whenever
    the optimizer call returns values. *)
Theorem rank_and_color_not_validated (request : OkeyRequest) (x : list Z) :
  (∃ response, solve_okey_hand request (Return x) = inl response) ∧
  length (tiles (request_solver request)) = length (pieces request) ∧
  ∀ i p, pieces request !! i = Some p →
    pd_color p ≠ "okey"%string → pd_color p ≠ "fake_okey"%string →
    tiles (request_solver request) !! i
    = Some (mkPiece piece (Some (pd_color p)) (pd_number p)).
Proof.
  split_and!.
  - destruct (solve_okey_hand_Return request x) as (sol & _ & Hr). eauto.
  - rewrite request_solver_tiles. simpl. by rewrite !length_fmap.
  - intros i p Hp H1 H2. rewrite request_solver_tiles. simpl.
    rewrite !list_lookup_fmap, Hp. simpl. unfold Piece_init. simpl.
    by rewrite !decide_False by done.
Qed.

(** ** The claims at concrete hands *)

(** [red 5, blue 5, black 5]: one Set of weight 15. *)
Example scenario_set :
  _enumerate_melds (OkeyILPSolver_init hand_set None None) = [([0; 1; 2]%nat, 15)] ∧
  score_of [([mkPiece piece (Some "red"%string) (Some 5);
              mkPiece piece (Some "blue"%string) (Some 5);
              mkPiece piece (Some "black"%string) (Some 5)], 15)] = 15 ∧
  solve (OkeyILPSolver_init hand_set None None) (Return [1])
  = Return [([mkPiece piece (Some "red"%string) (Some 5);
              mkPiece piece (Some "blue"%string) (Some 5);
              mkPiece piece (Some "black"%string) (Some 5)], 15)].
Proof. split_and!; by vm_compute. Qed.

(** [red 7, red 8, Joker] with the indicator red 9: the Runs 6..8 and 7..9
    over the same three tiles; taking the second gives 24. *)
Example scenario_run :
  _enumerate_melds (OkeyILPSolver_init hand_run (Some "red"%string) (Some 9))
  = [([0; 1; 2]%nat, 21); ([0; 1; 2]%nat, 24)] ∧
  solve_okey_hand
    (mkOkeyRequest [mkPieceData "red" (Some 7); mkPieceData "red" (Some 8);
                    mkPieceData "okey" None] "red" 9) (Return [0; 1])
  = inl (mkOkeyResponse
           [mkMeldResponse ["red 7"; "red 8"; "JOKER"]%string 24] 24 false 8 0).
Proof. split; by vm_compute. Qed.

(** [red 7, red 8, Joker] with the indicator red 9: the windows 6..8 and 7..9
    are the candidates, the optimum takes 7..9 for 24 points. *)
Lemma solve_optimal_witness :
  ∃ solution,
    solve (OkeyILPSolver_init hand_run (Some "red"%string) (Some 9)) (Return [0; 1])
    = Return solution ∧
    score_of solution
    = packing_weight
        (chosen (_enumerate_melds
                   (OkeyILPSolver_init hand_run (Some "red"%string) (Some 9))) [0; 1]) ∧
    chosen (_enumerate_melds
              (OkeyILPSolver_init hand_run (Some "red"%string) (Some 9))) [0; 1]
      `sublist_of`
      _enumerate_melds (OkeyILPSolver_init hand_run (Some "red"%string) (Some 9)) ∧
    index_disjoint
      (chosen (_enumerate_melds
                 (OkeyILPSolver_init hand_run (Some "red"%string) (Some 9))) [0; 1]) ∧
    ∀ sel,
      sel `sublist_of`
        _enumerate_melds (OkeyILPSolver_init hand_run (Some "red"%string) (Some 9)) →
      index_disjoint sel → packing_weight sel <= score_of solution.
Proof.
  apply (solve_optimal hand_run (Some "red"%string) (Some 9) [0; 1]).
  assert (Hmelds :
    _enumerate_melds (OkeyILPSolver_init hand_run (Some "red"%string) (Some 9))
    = [([0; 1; 2]%nat, 21); ([0; 1; 2]%nat, 24)]) by (vm_compute; reflexivity).
  rewrite Hmelds. split.
  - apply (bool_decide_unpack _). vm_compute. exact I.
  - intros y (Hlen & Hbin & Hc).
    destruct y as [|a [|b [|? ?]]]; try discriminate Hlen.
    apply Forall_cons in Hbin as [Ha Hbin]. apply Forall_cons in Hbin as [Hb _].
    apply Forall_cons in Hc as [H0 _].
    rewrite !tile_once_lhs_cons in H0.
    rewrite !decide_True in H0 by (cbn; left).
    change (tile_once_lhs [] [] 0%nat) with 0 in H0.
    rewrite !lp_objective_cons. change (lp_objective [] []) with 0.
    cbn [snd]. lia.
Defined.

(** [red 1, red 2, red 3, blue 7, black 7, yellow 7, Joker]: the Set of the
    three sevens with the Joker and the Run 1..3 are returned together. *)
Lemma solution_disjoint_witness :
  chosen (_enumerate_melds solver_two_melds) [0; 0; 0; 0; 1; 1; 0; 0]
  = [([3; 4; 5; 6]%nat, 28); ([0; 1; 2]%nat, 6)] ∧
  jokers_used solver_two_melds
    (chosen (_enumerate_melds solver_two_melds) [0; 0; 0; 0; 1; 1; 0; 0]) = 1 ∧
  ∃ solution,
    solve solver_two_melds (Return [0; 0; 0; 0; 1; 1; 0; 0]) = Return solution ∧
    Forall2 (λ m mw,
        Forall2 (λ i p, tiles solver_two_melds !! i = Some p) m.1 mw.1 ∧ mw.2 = m.2)
      (chosen (_enumerate_melds solver_two_melds) [0; 0; 0; 0; 1; 1; 0; 0])
      solution ∧
    index_disjoint
      (chosen (_enumerate_melds solver_two_melds) [0; 0; 0; 0; 1; 1; 0; 0]) ∧
    jokers_used solver_two_melds
      (chosen (_enumerate_melds solver_two_melds) [0; 0; 0; 0; 1; 1; 0; 0])
    <= joker_count solver_two_melds.
Proof.
  split; [vm_compute; reflexivity|]. split; [vm_compute; reflexivity|].
  apply (solution_disjoint hand_two_melds (Some "green"%string) (Some 1)
           [0; 0; 0; 0; 1; 1; 0; 0]).
  apply (bool_decide_unpack _). vm_compute. exact I.
Defined.

(** [red 5, red 5, red 6, red 7, blue 5, black 5]: the Run 5..7 takes the
    second red 5 and never the first, which the Set of fives
    [red 5, blue 5, black 5] does use. *)
Lemma run_excludes_lower_duplicate_witness :
  ([1; 2; 3]%nat, 18) ∈ run_melds solver_dup_run ∧
  (∀ m, m ∈ run_melds solver_dup_run → 0%nat ∉ m.1) ∧
  0%nat ∈ set_real_idxs solver_dup_run 5 ∧
  ([0; 4; 5]%nat, 15) ∈ set_melds solver_dup_run.
Proof.
  destruct (run_excludes_lower_duplicate hand_dup_run None None 0 1
              (mkPiece piece (Some "red"%string) (Some 5))
              (mkPiece piece (Some "red"%string) (Some 5)))
    as (Hrun & Hreal & Hset);
    try first [reflexivity | lia | discriminate].
  split; [apply (bool_decide_unpack _); vm_compute; exact I|].
  split; [exact Hrun|]. split; [by apply Hreal|].
  apply (Hset 5 [0; 4; 5]%nat []).
  - reflexivity.
  - lia.
  - left.
  - repeat constructor; lia.
  - constructor.
  - intros k Hk. apply (bool_decide_unpack _).
    apply list_elem_of_In in Hk. simpl in Hk.
    destruct Hk as [<-|[<-|[<-|[]]]]; vm_compute; exact I.
  - intros k Hk. by apply elem_of_nil in Hk.
  - left. reflexivity.
Defined.

(** C3 fails.  The request [purple 5, red 5, blue 5, red 99] holds an unknown
    color and a rank outside 1..13; it is answered with a meld that contains
    the purple tile, and no failure is reported. *)
Lemma malformed_request_accepted :
  solve_okey_hand request_malformed (Return [1])
  = inl (mkOkeyResponse
           [mkMeldResponse ["purple 5"; "red 5"; "blue 5"]%string 15] 15 false 5 0) ∧
  (∀ e, solve_okey_hand request_malformed (Return [1]) ≠ inr e).
Proof.
  split; [by vm_compute|]. intros e. by vm_compute.
Qed.

(** C2 at [red 5, red 5, blue 5]: the only candidate is the Set of the three
    tiles, the optimizer's optimum selects it, and the returned meld holds
    two red tiles. *)
Lemma set_meld_repeats_color :
  _enumerate_melds (OkeyILPSolver_init hand_dup None None) = [([0; 1; 2]%nat, 15)] ∧
  lp_optimal (_enumerate_melds (OkeyILPSolver_init hand_dup None None)) 3 [1] ∧
  solve (OkeyILPSolver_init hand_dup None None) (Return [1])
  = Return [([mkPiece piece (Some "red"%string) (Some 5);
              mkPiece piece (Some "red"%string) (Some 5);
              mkPiece piece (Some "blue"%string) (Some 5)], 15)].
Proof.
  assert (Hmelds : _enumerate_melds (OkeyILPSolver_init hand_dup None None)
                   = [([0; 1; 2]%nat, 15)]) by (vm_compute; reflexivity).
  split_and!; [done| |by vm_compute].
  rewrite Hmelds. by apply single_candidate_optimal.
Qed.

(** C9 at [Joker, red 5, blue 5] with the indicator black 5: the only
    candidate is the Set with the indices 1, 2, 0, the optimum selects it, and
    the returned meld lists the Joker of index 0 last. *)
Lemma set_meld_joker_last :
  _enumerate_melds (OkeyILPSolver_init hand_joker_first (Some "black"%string) (Some 5))
  = [([1; 2; 0]%nat, 15)] ∧
  lp_optimal
    (_enumerate_melds (OkeyILPSolver_init hand_joker_first (Some "black"%string) (Some 5)))
    3 [1] ∧
  solve (OkeyILPSolver_init hand_joker_first (Some "black"%string) (Some 5)) (Return [1])
  = Return [([mkPiece piece (Some "red"%string) (Some 5);
              mkPiece piece (Some "blue"%string) (Some 5);
              mkPiece okey (Some "black"%string) (Some 5)], 15)] ∧
  ¬ StronglySorted lt [1; 2; 0]%nat.
Proof.
  assert (Hmelds :
    _enumerate_melds (OkeyILPSolver_init hand_joker_first (Some "black"%string) (Some 5))
    = [([1; 2; 0]%nat, 15)]) by (vm_compute; reflexivity).
  split_and!; [done| |by vm_compute|].
  - rewrite Hmelds. by apply single_candidate_optimal.
  - intros Hs. apply StronglySorted_cons in Hs as [Hall _].
    apply Forall_cons in Hall as [_ Hall]. apply Forall_cons in Hall as [H10 _]. lia.
Qed.

Lemma hand_dup_no_valid_meld : no_valid_meld (tiles (request_solver request_dup)).
Proof.
  intros idxs Hvalid.
  destruct (spec_valid_meld_length _ _ Hvalid) as (Hnd & Hlt & Hlen).
  assert (H0 : 0%nat ∈ idxs) by (apply (NoDup_full idxs 3); simpl; (done || lia)).
  assert (H1 : 1%nat ∈ idxs) by (apply (NoDup_full idxs 3); simpl; (done || lia)).
  destruct Hvalid as [(_ & _ & _ & _ & Hcol)|(_ & _ & c & L & s & _ & _ & _ & _ & _ & Hnum)].
  - by apply (Hcol 0%nat 1%nat (mkPiece piece (Some "red"%string) (Some 5))
                (mkPiece piece (Some "red"%string) (Some 5))).
  - by apply (Hnum 0%nat 1%nat (mkPiece piece (Some "red"%string) (Some 5))
                (mkPiece piece (Some "red"%string) (Some 5))).
Qed.

(** C7 at [red 5, red 5, blue 5]: no choice of tiles of this hand is a valid
    meld, since any three of them hold the two red fives; yet the candidate
    list is not empty, selecting its candidate is the optimum, and the
    handler answers with one meld and total score 15. *)
Lemma invalid_meld_scored :
  no_valid_meld (tiles (request_solver request_dup)) ∧
  _enumerate_melds (request_solver request_dup) = [([0; 1; 2]%nat, 15)] ∧
  lp_optimal (_enumerate_melds (request_solver request_dup))
    (length (tiles (request_solver request_dup))) [1] ∧
  solve_okey_hand request_dup (Return [1])
  = inl (mkOkeyResponse
           [mkMeldResponse ["red 5"; "red 5"; "blue 5"]%string 15] 15 false 5 0).
Proof.
  assert (Hmelds : _enumerate_melds (request_solver request_dup)
                   = [([0; 1; 2]%nat, 15)]) by (vm_compute; reflexivity).
  split_and!; [apply hand_dup_no_valid_meld|done| |by vm_compute].
  rewrite Hmelds. by apply single_candidate_optimal.
Qed.

(** * Further properties of the code *)

Lemma Piece_init_type c n oc on :
  type (Piece_init c n oc on) = okey ↔ c = "okey"%string.
Proof.
  unfold Piece_init. repeat case_decide; simpl; split; intros; by simplify_eq.
Qed.

Lemma length_filter_complement {A} (P : A → Prop) `{!∀ x, Decision (P x)} (l : list A) :
  (length (filter P l) + length (filter (λ x, ¬ P x) l) = length l)%nat.
Proof. by rewrite <-length_app, filter_app_complement. Qed.

(** X1. [Piece.__init__]: a FakeJoker takes the indicator's color and the
    rank after the indicator's, always inside 1..13, with 13 followed by 1;
    without an indicator rank it has no rank. *)
Theorem fake_joker_rank (number : option Z) (indicator_color : option string) (r : Z) :
  (∃ k, Piece_init "fake_okey" number indicator_color (Some r)
        = mkPiece fake_okey indicator_color (Some k) ∧
        1 <= k <= 13 ∧ (1 <= r <= 12 → k = r + 1) ∧ (r = 13 → k = 1)) ∧
  Piece_init "fake_okey" number indicator_color None
  = mkPiece fake_okey indicator_color None.
Proof.
  split; [|done]. exists (r `mod` 13 + 1). split; [done|].
  pose proof (Z.mod_pos_bound r 13 ltac:(lia)). split_and!; [lia|lia| |].
  - intros Hr. by rewrite Z.mod_small by lia.
  - by intros ->.
Qed.

Section Extras.
Variables (pieces : list PieceDict).
Variables (okey_color : option string) (okey_number : option Z).
Local Abbreviation hand := (OkeyILPSolver_init pieces okey_color okey_number).

(** X2. [OkeyILPSolver.__init__]: the joker indices are the positions of the
    descriptors colored [okey], the non-joker indices are the other
    positions; both lists are strictly increasing and together they hold
    every position of the hand once. *)
Theorem indices_partition :
  (∀ i, i ∈ joker_indices (OkeyILPSolver_init pieces okey_color okey_number) ↔
        ∃ p, pieces !! i = Some p ∧ d_color p = "okey"%string) ∧
  (∀ i, i ∈ non_joker_indices (OkeyILPSolver_init pieces okey_color okey_number) ↔
        ∃ p, pieces !! i = Some p ∧ d_color p ≠ "okey"%string) ∧
  StronglySorted lt (joker_indices (OkeyILPSolver_init pieces okey_color okey_number)) ∧
  StronglySorted lt
    (non_joker_indices (OkeyILPSolver_init pieces okey_color okey_number)) ∧
  (length (joker_indices (OkeyILPSolver_init pieces okey_color okey_number)) +
   length (non_joker_indices (OkeyILPSolver_init pieces okey_color okey_number))
   = length pieces)%nat.
Proof.
  unfold OkeyILPSolver_init. simpl. split_and!.
  - intros i. rewrite index_jokers_spec. setoid_rewrite list_lookup_fmap. split.
    + intros (t & Ht & Hty). destruct (pieces !! i) as [p|]; [|done].
      simpl in Ht. injection Ht as <-. apply Piece_init_type in Hty. eauto.
    + intros (p & -> & Hc). eexists. split; [done|]. by apply Piece_init_type.
  - intros i. rewrite index_non_jokers_spec. setoid_rewrite list_lookup_fmap. split.
    + intros (t & Ht & Hty). destruct (pieces !! i) as [p|]; [|done].
      simpl in Ht. injection Ht as <-. rewrite Piece_init_type in Hty. eauto.
    + intros (p & -> & Hc). eexists. split; [done|]. by rewrite Piece_init_type.
  - apply index_jokers_sorted.
  - apply index_non_jokers_sorted.
  - set (ts := _ <$> pieces).
    assert (H1 : length (index_jokers ts) = length (filter (λ t, type t = okey) ts))
      by exact (length_indices_where (λ t, type t = okey) ts).
    assert (H2 : length (index_non_jokers ts)
                 = length (filter (λ t, ¬ type t = okey) ts))
      by exact (length_indices_where (λ t, type t ≠ okey) ts).
    rewrite H1, H2, (length_filter_complement (λ t, type t = okey)).
    apply length_fmap.
Qed.

(** X3. The Set pass, soundly and completely: its candidates are exactly
    the lists made of a non-empty increasing choice of non-joker tiles of one
    rank 1..13 (whatever their colors) followed by an increasing choice of
    jokers, 3 or 4 tiles in all, with weight rank times size. *)
Theorem set_candidates_exactly (m : Meld) :
  m ∈ set_melds hand ↔
  ∃ num real_comb joker_comb,
    1 <= num <= 13 ∧
    StronglySorted lt real_comb ∧ StronglySorted lt joker_comb ∧
    (∀ i, i ∈ real_comb →
       ∃ t, tiles hand !! i = Some t ∧ type t ≠ okey ∧ number t = Some num) ∧
    (∀ i, i ∈ joker_comb → ∃ t, tiles hand !! i = Some t ∧ type t = okey) ∧
    (1 ≤ length real_comb)%nat ∧
    (length real_comb + length joker_comb = 3 ∨
     length real_comb + length joker_comb = 4)%nat ∧
    m = (real_comb ++ joker_comb,
         num * Z.of_nat (length real_comb + length joker_comb)).
Proof. apply set_melds_exactly. Qed.

(** X4. Every Run candidate belongs to a color [c] and a window of [L] ranks
    from [s], inside 1..13 with 3 <= L: it has [L] indices in strictly
    increasing order, weighs [L*(2s+L-1)/2], its non-joker members have
    color [c] and pairwise different ranks of the window, and at least one
    member is not a joker. *)
Theorem run_candidate_shape (m : Meld) :
  m ∈ run_melds hand →
  ∃ c L s,
    3 <= L <= 13 ∧ 1 <= s ∧ s + L <= 14 ∧
    Z.of_nat (length m.1) = L ∧
    StronglySorted lt m.1 ∧
    2 * m.2 = L * (2 * s + L - 1) ∧
    (∀ i t, i ∈ m.1 → tiles hand !! i = Some t → type t ≠ okey →
       color t = c ∧ ∃ n, number t = Some n ∧ s <= n < s + L) ∧
    (∀ i i' t t', i ∈ m.1 → i' ∈ m.1 →
       tiles hand !! i = Some t → tiles hand !! i' = Some t' →
       type t ≠ okey → type t' ≠ okey → number t = number t' → i = i') ∧
    (∃ i t, i ∈ m.1 ∧ tiles hand !! i = Some t ∧ type t ≠ okey).
Proof.
  unfold OkeyILPSolver_init. set (ts := _ <$> pieces).
  change (tiles (solver_of_tiles ts)) with ts.
  intros (c & L & s & _ & HL & Hs1 & Hs2 & Hm)%elem_of_run_melds.
  destruct (run_window_shape ts c L s m ltac:(lia) Hm)
    as (Hlen & Hsorted & Hmem & Hinj & Hreal).
  exists c, L, s. split_and!; try done; try lia.
  apply elem_of_run_window in Hm as (_ & _ & jc & _ & ->). simpl.
  apply sum_range. lia.
Qed.

(** X5. Every candidate has between 3 and 13 distinct tile indices of the
    hand, at least one of them a non-joker tile, and a weight of at least 3
    and at most 13 per tile. *)
Theorem candidate_in_bounds (m : Meld) :
  m ∈ _enumerate_melds hand →
  (3 ≤ length m.1 ≤ 13)%nat ∧
  NoDup m.1 ∧ (∀ i, i ∈ m.1 → (i < length pieces)%nat) ∧
  (∃ i t, i ∈ m.1 ∧ tiles hand !! i = Some t ∧ type t ≠ okey) ∧
  3 <= m.2 <= 13 * len m.1.
Proof.
  unfold OkeyILPSolver_init. set (ts := _ <$> pieces).
  change (tiles (solver_of_tiles ts)) with ts. intros Hm.
  destruct (candidate_bounds ts m Hm) as (Hlen & Hreal & Hw).
  destruct (enumerate_melds_wf ts m Hm) as [Hnd Hlt].
  split_and!; try done; try lia.
  intros i Hi. specialize (Hlt i Hi). unfold ts in Hlt.
  by rewrite length_fmap in Hlt.
Qed.

(** X6. A non-joker tile without a rank, or with a rank outside 1..13, is in
    no candidate. *)
Theorem unranked_tile_unused (i : nat) (t : Piece) :
  tiles hand !! i = Some t → type t ≠ okey →
  (∀ n, number t = Some n → n < 1 ∨ 13 < n) →
  ∀ m, m ∈ _enumerate_melds hand → i ∉ m.1.
Proof.
  unfold OkeyILPSolver_init. set (ts := _ <$> pieces).
  change (tiles (solver_of_tiles ts)) with ts.
  intros Ht Hty Hout m [Hm|Hm]%elem_of_enumerate_melds Hi.
  - apply set_melds_exactly in Hm
      as (num & rc & jc & Hnum & _ & _ & Hrc & Hjc & _ & _ & ->). simpl in Hi.
    apply elem_of_app in Hi as [Hi|Hi].
    + destruct (Hrc i Hi) as (t' & Ht' & _ & Hn). simplify_eq.
      specialize (Hout num Hn). lia.
    + destruct (Hjc i Hi) as (t' & Ht' & Hty'). congruence.
  - apply elem_of_run_melds in Hm as (c & L & s & _ & HL & Hs1 & Hs2 & Hm).
    destruct (run_window_shape ts c L s m ltac:(lia) Hm) as (_ & _ & Hmem & _).
    destruct (Hmem i t Hi Ht Hty) as (_ & n & Hn & Hwin).
    specialize (Hout n Hn). lia.
Qed.

(** X7. A Joker is a wildcard only: its index is a joker index, and it is
    never among the real tiles of a Set rank nor a value of the rank
    dictionary of a Run color, whatever the indicator it stands for. *)
Theorem joker_is_wildcard_only (i : nat) (p : PieceDict) :
  pieces !! i = Some p → d_color p = "okey"%string →
  i ∈ joker_indices hand ∧
  (∀ num, i ∉ set_real_idxs hand num) ∧
  (∀ c k, num_to_idx hand c !! k ≠ Some i).
Proof.
  intros Hp Hc.
  assert (Ht : tiles hand !! i
               = Some (Piece_init (d_color p) (d_number p) okey_color okey_number)).
  { unfold OkeyILPSolver_init. simpl. by rewrite list_lookup_fmap, Hp. }
  assert (Hty : type (Piece_init (d_color p) (d_number p) okey_color okey_number)
                = okey) by by apply Piece_init_type.
  split_and!.
  - apply index_jokers_spec. eauto.
  - intros num (t & Ht' & Hty' & _)%elem_of_set_real_idxs.
    simpl in Ht. congruence.
  - intros c k Hlk. apply num_to_idx_Some in Hlk as [(t & Ht' & Hty' & _) _].
    congruence.
Qed.

(** X8. A FakeJoker melds as the tile it stands for: with an indicator of
    rank [r] it is a real tile of the Set rank [(r mod 13) + 1] and a real
    tile of the indicator's color and that rank for the Run pass, and it is
    not a joker index. *)
Theorem fake_joker_is_ordinary (i : nat) (p : PieceDict) (r : Z) :
  pieces !! i = Some p → d_color p = "fake_okey"%string → okey_number = Some r →
  (i ∉ joker_indices hand) ∧
  i ∈ set_real_idxs hand (r `mod` 13 + 1) ∧
  has_real hand okey_color (r `mod` 13 + 1).
Proof.
  intros Hp Hc Hr.
  assert (Ht : tiles hand !! i
               = Some (mkPiece fake_okey okey_color (Some (r `mod` 13 + 1)))).
  { unfold OkeyILPSolver_init. simpl. rewrite list_lookup_fmap, Hp. simpl.
    by rewrite Hc, Hr. }
  split_and!.
  - intros (t & Ht' & Hty)%index_jokers_spec. simpl in Ht. by simplify_eq.
  - apply elem_of_set_real_idxs. eexists. by split_and!.
  - apply Exists_exists. eexists. split; [by eapply list_elem_of_lookup_2|].
    by split_and!.
Qed.

(** X9. The rank dictionary of a Run color: a rank is absent exactly when no
    real tile of the color carries it, and otherwise it maps to the largest
    index of such a tile. *)
Theorem rank_dictionary (c : option string) (n : Z) :
  (num_to_idx hand c !! Some n = None ↔ ¬ has_real hand c n) ∧
  ∀ i, num_to_idx hand c !! Some n = Some i ↔
       (∃ t, tiles hand !! i = Some t ∧ real_tile c (Some n) t) ∧
       (∀ j t', (i < j)%nat → tiles hand !! j = Some t' → ¬ real_tile c (Some n) t').
Proof. split; [apply num_to_idx_None|intros i; apply num_to_idx_Some]. Qed.

End Extras.

(** X10. A hand without Joker and FakeJoker markers is resolved, enumerated
    and solved the same whatever the indicator. *)
Theorem indicator_irrelevant (pieces : list PieceDict)
    (c1 c2 : option string) (n1 n2 : option Z) :
  (∀ p, p ∈ pieces → d_color p ≠ "okey"%string ∧ d_color p ≠ "fake_okey"%string) →
  OkeyILPSolver_init pieces c1 n1 = OkeyILPSolver_init pieces c2 n2 ∧
  _enumerate_melds (OkeyILPSolver_init pieces c1 n1)
  = _enumerate_melds (OkeyILPSolver_init pieces c2 n2) ∧
  ∀ cbc, solve (OkeyILPSolver_init pieces c1 n1) cbc
         = solve (OkeyILPSolver_init pieces c2 n2) cbc.
Proof.
  intros Hp.
  assert (Heq : OkeyILPSolver_init pieces c1 n1 = OkeyILPSolver_init pieces c2 n2).
  { unfold OkeyILPSolver_init. f_equal. apply list_fmap_ext.
    intros i p Hi. apply list_elem_of_lookup_2, Hp in Hi as [H1 H2].
    unfold Piece_init. by rewrite !decide_False by done. }
  by rewrite Heq.
Qed.

Section ExtrasSolve.
Variables (pieces : list PieceDict).
Variables (okey_color : option string) (okey_number : option Z).
Local Abbreviation hand := (OkeyILPSolver_init pieces okey_color okey_number).

(** X11. The 0/1 program of [solve] always has a solution: selecting
    nothing satisfies every constraint and makes [solve] return the empty
    list, and some assignment is an exact optimum. *)
Theorem program_has_optimum :
  lp_feasible (_enumerate_melds hand) (length (tiles hand))
    (replicate (length (_enumerate_melds hand)) 0) ∧
  solve hand (Return (replicate (length (_enumerate_melds hand)) 0)) = Return [] ∧
  ∃ x, lp_optimal (_enumerate_melds hand) (length (tiles hand)) x.
Proof.
  destruct (zero_assignment_feasible (_enumerate_melds hand) (length (tiles hand)))
    as [Hfeas Hch].
  split_and!; [done| |apply lp_optimal_exists].
  unfold solve, extract. by rewrite Hch.
Qed.

(** X12. For an assignment that satisfies the constraints, [solve] returns
    melds of 3 to 13 tiles each; three times their number is at most the
    number of tiles of the hand, and the total score lies between three
    times their number and 13 times the number of tiles. *)
Theorem solution_size_bounds (x : list Z) :
  lp_feasible (_enumerate_melds hand) (length (tiles hand)) x →
  ∃ solution,
    solve hand (Return x) = Return solution ∧
    Forall (λ mw, (3 ≤ length mw.1 ≤ 13)%nat ∧ 3 <= mw.2) solution ∧
    (3 * length solution ≤ length pieces)%nat ∧
    3 * len solution <= score_of solution <= 13 * len pieces.
Proof.
  unfold OkeyILPSolver_init. set (ts := _ <$> pieces).
  change (tiles (solver_of_tiles ts)) with ts. intros Hfeas.
  destruct (solve_score ts x) as (sol & Hsol & Hlen & Hscore & Hrel).
  pose proof (lp_feasible_tiles_once ts x Hfeas) as Huse.
  destruct (packing_bounds (chosen (_enumerate_melds (solver_of_tiles ts)) x))
    as (Hcount & Hw); [apply chosen_bounds|].
  assert (Hts : length ts = length pieces) by apply length_fmap.
  exists sol. split_and!; [done| |lia|unfold len in *; lia|unfold len in *; lia].
  apply Forall_forall. intros mw Hmw.
  apply list_elem_of_lookup in Hmw as [k Hk].
  destruct (Forall2_lookup_r _ _ _ _ _ Hrel Hk) as (m & Hm & Hl & Hw').
  apply list_elem_of_lookup_2, (sublist_subseteq _ _ (chosen_sublist _ x)) in Hm.
  destruct (candidate_bounds ts m Hm) as (Hlm & _ & Hwm). lia.
Qed.

(** X13. For an exact optimum, the total score is at least the weight of
    every candidate, and [solve] returns no meld exactly when the enumerator
    found no candidate. *)
Theorem optimum_dominates_candidates (x : list Z) :
  lp_optimal (_enumerate_melds hand) (length (tiles hand)) x →
  ∃ solution,
    solve hand (Return x) = Return solution ∧
    (∀ m, m ∈ _enumerate_melds hand → m.2 <= score_of solution) ∧
    (solution = [] ↔ _enumerate_melds hand = []).
Proof.
  unfold OkeyILPSolver_init. set (ts := _ <$> pieces).
  change (tiles (solver_of_tiles ts)) with ts. intros [Hfeas Hopt].
  destruct (solve_score ts x) as (sol & Hsol & Hlen & Hscore & _).
  assert (Hdom : ∀ m, m ∈ _enumerate_melds (solver_of_tiles ts) →
                      m.2 <= score_of sol).
  { intros m Hm.
    destruct (single_candidate_feasible _ (length ts) m Hm) as (y & Hy & <-).
    rewrite Hscore, <-lp_objective_chosen by apply Hfeas. by apply Hopt. }
  exists sol. split_and!; [done..|]. split.
  - intros ->.
    destruct (nil_or_elem (_enumerate_melds (solver_of_tiles ts))) as [|[m Hm]];
      [done|].
    pose proof (Hdom m Hm) as Hle.
    destruct (candidate_bounds ts m Hm) as (_ & _ & Hw).
    unfold score_of in Hle. simpl in Hle. lia.
  - intros Hnil. rewrite Hnil, chosen_nil_l in Hlen. by destruct sol.
Qed.

(** X14. Two exact optima give the same total score, whatever melds each
    selects. *)
Theorem score_is_determined (x x' : list Z) :
  lp_optimal (_enumerate_melds hand) (length (tiles hand)) x →
  lp_optimal (_enumerate_melds hand) (length (tiles hand)) x' →
  ∃ solution solution',
    solve hand (Return x) = Return solution ∧
    solve hand (Return x') = Return solution' ∧
    score_of solution = score_of solution'.
Proof.
  unfold OkeyILPSolver_init. set (ts := _ <$> pieces).
  change (tiles (solver_of_tiles ts)) with ts. intros [Hf Ho] [Hf' Ho'].
  destruct (solve_score ts x) as (sol & Hsol & _ & Hscore & _).
  destruct (solve_score ts x') as (sol' & Hsol' & _ & Hscore' & _).
  exists sol, sol'. split_and!; [done..|].
  rewrite Hscore, Hscore', <-!lp_objective_chosen by (apply Hf || apply Hf').
  specialize (Ho x' Hf'). specialize (Ho' x Hf). lia.
Qed.

(** X15. A hand of fewer than three tiles, or of Jokers only, has no
    candidate, and [solve] returns the empty list for it. *)
Theorem no_candidates_small_or_jokers (x : list Z) :
  (length pieces < 3)%nat ∨ (∀ p, p ∈ pieces → d_color p = "okey"%string) →
  _enumerate_melds hand = [] ∧ solve hand (Return x) = Return [].
Proof.
  intros Hsmall.
  assert (Hnil : _enumerate_melds hand = []).
  { destruct (nil_or_elem (_enumerate_melds hand)) as [|[m Hm]]; [done|]. exfalso.
    unfold OkeyILPSolver_init in Hm.
    destruct (candidate_bounds _ m Hm) as (Hlen & (i & t & Hi & Ht & Hty) & _).
    destruct (enumerate_melds_wf _ m Hm) as [Hnd Hlt].
    pose proof (NoDup_lt_length _ _ Hnd Hlt) as Hn.
    rewrite length_fmap in Hn.
    destruct Hsmall as [Hsmall|Hjok]; [lia|].
    rewrite list_lookup_fmap in Ht.
    destruct (pieces !! i) as [p|] eqn:Hp; [|done].
    simpl in Ht. injection Ht as <-.
    apply Hty, Piece_init_type, Hjok. by eapply list_elem_of_lookup_2. }
  split; [done|]. by apply solve_no_candidates.
Qed.


End ExtrasSolve.

Lemma sum_values (solution : list (list Piece * Z)) :
  sum (value <$> ((λ mw, mkMeldResponse (piece_str <$> mw.1) mw.2) <$> solution))
  = sum solution.*2.
Proof.
  induction solution as [|mw sol IH]; [done|].
  by rewrite !fmap_cons, !sum_cons, IH.
Qed.

(** X17. The handler's response is consistent: the total score is the sum
    of the meld values, each meld has 3 to 13 tokens and a value of at least
    3, [number_of_triples] and [number_of_sides] are the quotient and the
    remainder of the total by 3, and [can_open] holds exactly from 101
    points. *)
Theorem response_consistent (request : OkeyRequest) (x : list Z) (response : OkeyResponse) :
  solve_okey_hand request (Return x) = inl response →
  total_score response = sum (value <$> melds response) ∧
  Forall (λ mr, (3 ≤ length (mr_pieces mr) ≤ 13)%nat ∧ 3 <= value mr) (melds response) ∧
  total_score response = 3 * number_of_triples response + number_of_sides response ∧
  0 <= number_of_sides response <= 2 ∧
  0 <= number_of_triples response ∧
  (can_open response = true ↔ 101 <= total_score response).
Proof.
  intros Hresp.
  destruct (solve_okey_hand_Return request x) as (sol & Hsol & Hr).
  rewrite Hr in Hresp. injection Hresp as <-.
  rewrite request_solver_tiles in Hsol.
  set (ts := _ <$> (_ <$> pieces request)) in Hsol.
  destruct (solve_score ts x) as (sol' & Hsol' & Hlen & Hscore & Hrel).
  rewrite Hsol in Hsol'. injection Hsol' as <-.
  destruct (packing_bounds (chosen (_enumerate_melds (solver_of_tiles ts)) x))
    as (_ & Hw & _); [apply chosen_bounds|].
  assert (Hnn : 0 <= score_of sol).
  { rewrite Hscore. pose proof (len_nonneg (chosen (_enumerate_melds (solver_of_tiles ts)) x)).
    lia. }
  unfold build_response. simpl. split_and!.
  - rewrite sum_values. unfold score_of. rewrite foldl_score. lia.
  - apply Forall_fmap, Forall_forall. intros mw Hmw. simpl.
    apply list_elem_of_lookup in Hmw as [k Hk].
    destruct (Forall2_lookup_r _ _ _ _ _ Hrel Hk) as (m & Hm & Hl & Hw').
    apply list_elem_of_lookup_2, (sublist_subseteq _ _ (chosen_sublist _ x)) in Hm.
    destruct (candidate_bounds ts m Hm) as (Hlm & _ & Hwm).
    rewrite length_fmap. lia.
  - apply Z.div_mod. lia.
  - pose proof (Z.mod_pos_bound (score_of sol) 3 ltac:(lia)). lia.
  - pose proof (Z.mod_pos_bound (score_of sol) 3 ltac:(lia)). lia.
  - by apply Z.div_pos.
  - rewrite bool_decide_eq_true. lia.
Qed.

(** X18. For an assignment that satisfies the constraints, the handler's
    total score is at most 13 per tile of the request, three times the number
    of melds is at most the number of tiles, and [can_open] needs at least 8
    tiles. *)
Theorem can_open_needs_eight_tiles (request : OkeyRequest) (x : list Z)
    (response : OkeyResponse) :
  lp_feasible (_enumerate_melds (request_solver request))
    (length (tiles (request_solver request))) x →
  solve_okey_hand request (Return x) = inl response →
  total_score response <= 13 * len (pieces request) ∧
  (3 * length (melds response) ≤ length (pieces request))%nat ∧
  (can_open response = true → (8 ≤ length (pieces request))%nat).
Proof.
  intros Hfeas Hresp.
  destruct (solve_okey_hand_Return request x) as (sol & Hsol & Hr).
  rewrite Hr in Hresp. injection Hresp as <-.
  rewrite request_solver_tiles in Hsol, Hfeas.
  set (ts := _ <$> (_ <$> pieces request)) in Hsol, Hfeas.
  change (tiles (solver_of_tiles ts)) with ts in Hfeas.
  destruct (solve_score ts x) as (sol' & Hsol' & Hlen & Hscore & _).
  rewrite Hsol in Hsol'. injection Hsol' as <-.
  pose proof (lp_feasible_tiles_once ts x Hfeas) as Huse.
  destruct (packing_bounds (chosen (_enumerate_melds (solver_of_tiles ts)) x))
    as (Hcount & Hw); [apply chosen_bounds|].
  assert (Hts : length ts = length (pieces request)).
  { unfold ts. by rewrite !length_fmap. }
  unfold build_response. simpl. rewrite length_fmap.
  assert (Hle : score_of sol <= 13 * len (pieces request)).
  { unfold len in *. lia. }
  split_and!; [done|lia|].
  rewrite bool_decide_eq_true. unfold len in Hle. lia.
Qed.

Lemma string_append_assoc (s1 s2 s3 : string) :
  ((s1 +:+ s2) +:+ s3 = s1 +:+ (s2 +:+ s3))%string.
Proof.
  induction s1 as [|a s1 IH]; [done|].
  change (String a ((s1 +:+ s2) +:+ s3) = String a (s1 +:+ (s2 +:+ s3))).
  by rewrite IH.
Qed.

(** X19. [Piece.__str__] and the handler's token agree on every tile that is
    not a FakeJoker; on a FakeJoker [Piece.__str__] wraps the handler's token
    in [FAKE_OKEY(...)], which the response never shows. *)
Theorem str_and_token (p : Piece) :
  (type p ≠ fake_okey → Piece_str p = piece_str p) ∧
  (type p = fake_okey →
     Piece_str p = ("FAKE_OKEY(" +:+ piece_str p +:+ ")")%string).
Proof.
  unfold Piece_str, piece_str. split; intros Hty; destruct (type p); try done.
  by rewrite !string_append_assoc.
Qed.

(** X20. On a hand in which no two non-joker tiles have the same color and
    rank, every candidate is a structurally valid meld; when such a hand has
    no valid meld at all, the candidate list is empty and [solve] returns the
    empty list. *)
Theorem candidates_valid_without_duplicates (pieces : list PieceDict)
    (indicator_color : option string) (indicator_number : option Z) :
  no_duplicate_tiles (tiles (OkeyILPSolver_init pieces indicator_color indicator_number)) →
  (∀ m, m ∈ _enumerate_melds (OkeyILPSolver_init pieces indicator_color indicator_number) →
        spec_valid_meld
          (tiles (OkeyILPSolver_init pieces indicator_color indicator_number)) m.1) ∧
  (no_valid_meld (tiles (OkeyILPSolver_init pieces indicator_color indicator_number)) →
   _enumerate_melds (OkeyILPSolver_init pieces indicator_color indicator_number) = [] ∧
   ∀ x, solve (OkeyILPSolver_init pieces indicator_color indicator_number) (Return x)
        = Return []).
Proof.
  unfold OkeyILPSolver_init. set (ts := _ <$> pieces).
  change (tiles (solver_of_tiles ts)) with ts. intros Hdup. split.
  - intros m Hm. by apply candidate_valid.
  - intros Hno.
    assert (Hnil : _enumerate_melds (solver_of_tiles ts) = [])
      by by apply no_valid_meld_no_candidates.
    split; [done|]. intros x. by apply solve_no_candidates.
Qed.

(** ** The further properties at concrete hands *)

(** The Run 7..9 of [red 7, red 8, Joker]. *)
Lemma run_candidate_shape_witness :
  ∃ c L s,
    3 <= L <= 13 ∧ 1 <= s ∧ s + L <= 14 ∧
    Z.of_nat (length [0; 1; 2]%nat) = L ∧
    StronglySorted lt [0; 1; 2]%nat ∧
    2 * 24 = L * (2 * s + L - 1) ∧
    (∀ i t, i ∈ [0; 1; 2]%nat → tiles solver_run !! i = Some t → type t ≠ okey →
       color t = c ∧ ∃ n, number t = Some n ∧ s <= n < s + L) ∧
    (∀ i i' t t', i ∈ [0; 1; 2]%nat → i' ∈ [0; 1; 2]%nat →
       tiles solver_run !! i = Some t → tiles solver_run !! i' = Some t' →
       type t ≠ okey → type t' ≠ okey → number t = number t' → i = i') ∧
    (∃ i t, i ∈ [0; 1; 2]%nat ∧ tiles solver_run !! i = Some t ∧ type t ≠ okey).
Proof.
  apply (run_candidate_shape hand_run (Some "red"%string) (Some 9) ([0; 1; 2]%nat, 24)).
  apply (bool_decide_unpack _). vm_compute. exact I.
Defined.

Lemma candidate_in_bounds_witness :
  (3 ≤ length [0; 1; 2]%nat ≤ 13)%nat ∧
  NoDup [0; 1; 2]%nat ∧ (∀ i, i ∈ [0; 1; 2]%nat → (i < length hand_run)%nat) ∧
  (∃ i t, i ∈ [0; 1; 2]%nat ∧ tiles solver_run !! i = Some t ∧ type t ≠ okey) ∧
  3 <= 24 <= 13 * len [0; 1; 2]%nat.
Proof.
  apply (candidate_in_bounds hand_run (Some "red"%string) (Some 9) ([0; 1; 2]%nat, 24)).
  apply (bool_decide_unpack _). vm_compute. exact I.
Defined.

(** The [red 99] of [purple 5, red 5, blue 5, red 99]. *)
Lemma unranked_tile_unused_witness :
  tiles solver_malformed !! 3%nat = Some (mkPiece piece (Some "red"%string) (Some 99)) ∧
  (∀ m, m ∈ _enumerate_melds solver_malformed → 3%nat ∉ m.1).
Proof.
  split; [reflexivity|].
  apply (unranked_tile_unused hand_malformed (Some "red"%string) (Some 1) 3
           (mkPiece piece (Some "red"%string) (Some 99))).
  - reflexivity.
  - discriminate.
  - intros n [= <-]. lia.
Defined.

(** The Joker of [Joker, red 5, blue 5] with the indicator black 5. *)
Lemma joker_is_wildcard_only_witness :
  0%nat ∈ joker_indices solver_joker_first ∧
  (∀ num, 0%nat ∉ set_real_idxs solver_joker_first num) ∧
  (∀ c k, num_to_idx solver_joker_first c !! k ≠ Some 0%nat).
Proof.
  apply (joker_is_wildcard_only hand_joker_first (Some "black"%string) (Some 5) 0
           (mkPieceDict "okey" None)); reflexivity.
Defined.

(** The FakeJoker of [red 4, FakeJoker, red 6] with the indicator red 4
    stands for red 5. *)
Lemma fake_joker_is_ordinary_witness :
  (1%nat ∉ joker_indices solver_fake) ∧
  1%nat ∈ set_real_idxs solver_fake (4 `mod` 13 + 1) ∧
  has_real solver_fake (Some "red"%string) (4 `mod` 13 + 1).
Proof.
  apply (fake_joker_is_ordinary hand_fake (Some "red"%string) (Some 4) 1
           (mkPieceDict "fake_okey" None) 4); reflexivity.
Defined.

(** [red 5, blue 5, black 5] under two indicators. *)
Lemma indicator_irrelevant_witness :
  OkeyILPSolver_init hand_set None None
  = OkeyILPSolver_init hand_set (Some "red"%string) (Some 9) ∧
  _enumerate_melds (OkeyILPSolver_init hand_set None None)
  = _enumerate_melds (OkeyILPSolver_init hand_set (Some "red"%string) (Some 9)) ∧
  ∀ cbc, solve (OkeyILPSolver_init hand_set None None) cbc
         = solve (OkeyILPSolver_init hand_set (Some "red"%string) (Some 9)) cbc.
Proof.
  apply (indicator_irrelevant hand_set None (Some "red"%string) None (Some 9)).
  intros p Hp. apply list_elem_of_In in Hp. simpl in Hp.
  destruct Hp as [<-|[<-|[<-|[]]]]; by split.
Defined.

Lemma solution_size_bounds_witness :
  ∃ solution,
    solve solver_run (Return [0; 1]) = Return solution ∧
    Forall (λ mw, (3 ≤ length mw.1 ≤ 13)%nat ∧ 3 <= mw.2) solution ∧
    (3 * length solution ≤ length hand_run)%nat ∧
    3 * len solution <= score_of solution <= 13 * len hand_run.
Proof.
  apply (solution_size_bounds hand_run (Some "red"%string) (Some 9) [0; 1]).
  apply (bool_decide_unpack _). vm_compute. exact I.
Defined.

Lemma optimum_dominates_candidates_witness :
  ∃ solution,
    solve solver_run (Return [0; 1]) = Return solution ∧
    (∀ m, m ∈ _enumerate_melds solver_run → m.2 <= score_of solution) ∧
    (solution = [] ↔ _enumerate_melds solver_run = []).
Proof.
  apply (optimum_dominates_candidates hand_run (Some "red"%string) (Some 9) [0; 1]).
  apply hand_run_optimal.
Defined.

Lemma hand_tie_melds :
  _enumerate_melds solver_tie = [([1; 3; 4]%nat, 15); ([0; 1; 2]%nat, 15)].
Proof. vm_compute. reflexivity. Qed.

Lemma hand_tie_optimal (x : list Z) :
  x = [1; 0] ∨ x = [0; 1] →
  lp_optimal (_enumerate_melds solver_tie) (length (tiles solver_tie)) x.
Proof.
  intros Hx.
  apply (small_hand_optimal
           ((λ p, Piece_init (d_color p) (d_number p) None None) <$> hand_tie) x).
  - simpl. lia.
  - destruct Hx as [-> | ->]; apply (bool_decide_unpack _); vm_compute; exact I.
  - intros m Hm.
    assert (Hobj : lp_objective (_enumerate_melds solver_tie) x = 15)
      by (destruct Hx as [-> | ->]; vm_compute; reflexivity).
    change (_enumerate_melds (solver_of_tiles _)) with (_enumerate_melds solver_tie)
      in Hm |- *.
    rewrite Hobj. rewrite hand_tie_melds in Hm.
    apply list_elem_of_In in Hm. simpl in Hm.
    destruct Hm as [<-|[<-|[]]]; simpl; lia.
Qed.

(** [red 4, red 5, red 6, blue 5, black 5]: one optimum takes the Set of
    fives, the other the Run 4..6; both score 15. *)
Lemma score_is_determined_witness :
  chosen (_enumerate_melds solver_tie) [1; 0] = [([1; 3; 4]%nat, 15)] ∧
  chosen (_enumerate_melds solver_tie) [0; 1] = [([0; 1; 2]%nat, 15)] ∧
  ∃ solution solution',
    solve solver_tie (Return [1; 0]) = Return solution ∧
    solve solver_tie (Return [0; 1]) = Return solution' ∧
    score_of solution = score_of solution'.
Proof.
  split; [vm_compute; reflexivity|]. split; [vm_compute; reflexivity|].
  apply (score_is_determined hand_tie None None [1; 0] [0; 1]);
    apply hand_tie_optimal; auto.
Defined.

(** Three Jokers. *)
Lemma no_candidates_small_or_jokers_witness :
  _enumerate_melds solver_jokers = [] ∧ solve solver_jokers (Return []) = Return [].
Proof.
  apply (no_candidates_small_or_jokers hand_jokers (Some "red"%string) (Some 4) []).
  right. intros p Hp. apply list_elem_of_In in Hp. simpl in Hp.
  destruct Hp as [<-|[<-|[<-|[]]]]; reflexivity.
Defined.


Lemma response_consistent_witness :
  total_score (mkOkeyResponse
                 [mkMeldResponse ["red 7"; "red 8"; "JOKER"]%string 24] 24 false 8 0)
  = sum (value <$> [mkMeldResponse ["red 7"; "red 8"; "JOKER"]%string 24]) ∧
  Forall (λ mr, (3 ≤ length (mr_pieces mr) ≤ 13)%nat ∧ 3 <= value mr)
    [mkMeldResponse ["red 7"; "red 8"; "JOKER"]%string 24] ∧
  24 = 3 * 8 + 0 ∧ 0 <= 0 <= 2 ∧ 0 <= 8 ∧ (false = true ↔ 101 <= 24).
Proof.
  apply (response_consistent request_run [0; 1]
           (mkOkeyResponse
              [mkMeldResponse ["red 7"; "red 8"; "JOKER"]%string 24] 24 false 8 0)).
  vm_compute. reflexivity.
Defined.

(** Nine tiles, the three Sets of 11, 12 and 13: 108 points, the hand
    opens. *)
Lemma can_open_needs_eight_tiles_witness :
  solve_okey_hand request_open (Return [1; 1; 1; 0; 0; 0])
  = inl (mkOkeyResponse
           [mkMeldResponse ["red 11"; "blue 11"; "black 11"]%string 33;
            mkMeldResponse ["red 12"; "blue 12"; "black 12"]%string 36;
            mkMeldResponse ["red 13"; "blue 13"; "black 13"]%string 39]
           108 true 36 0) ∧
  108 <= 13 * len (pieces request_open) ∧
  (3 * 3 ≤ length (pieces request_open))%nat ∧
  (true = true → (8 ≤ length (pieces request_open))%nat).
Proof.
  split; [vm_compute; reflexivity|].
  apply (can_open_needs_eight_tiles request_open [1; 1; 1; 0; 0; 0]
           (mkOkeyResponse
              [mkMeldResponse ["red 11"; "blue 11"; "black 11"]%string 33;
               mkMeldResponse ["red 12"; "blue 12"; "black 12"]%string 36;
               mkMeldResponse ["red 13"; "blue 13"; "black 13"]%string 39]
              108 true 36 0)).
  - apply (bool_decide_unpack _). vm_compute. exact I.
  - vm_compute. reflexivity.
Defined.

Lemma hand_set_no_duplicates :
  no_duplicate_tiles (tiles (OkeyILPSolver_init hand_set None None)).
Proof.
  intros i j ti tj Hij Hi Hj _ _ [Hc _].
  destruct i as [|[|[|?]]], j as [|[|[|?]]]; try done;
    simpl in Hi, Hj; simplify_eq.
Qed.

Lemma hand_none_no_duplicates :
  no_duplicate_tiles (tiles (OkeyILPSolver_init hand_none None None)).
Proof.
  intros i j ti tj Hij Hi Hj _ _ [Hc _].
  destruct i as [|[|[|?]]], j as [|[|[|?]]]; try done;
    simpl in Hi, Hj; simplify_eq.
Qed.

Lemma hand_none_no_valid_meld :
  no_valid_meld (tiles (OkeyILPSolver_init hand_none None None)).
Proof.
  intros idxs Hvalid.
  destruct (spec_valid_meld_length _ _ Hvalid) as (Hnd & Hlt & Hlen).
  assert (H0 : 0%nat ∈ idxs) by (apply (NoDup_full idxs 3); simpl; (done || lia)).
  assert (H1 : 1%nat ∈ idxs) by (apply (NoDup_full idxs 3); simpl; (done || lia)).
  destruct Hvalid
    as [(_ & _ & _ & (rank & _ & Hrank) & _)|(_ & _ & c & L & s & _ & _ & _ & _ & Hmem & _)].
  - pose proof (Hrank 0%nat (mkPiece piece (Some "red"%string) (Some 1)) H0
                  eq_refl ltac:(discriminate)) as Ha.
    pose proof (Hrank 1%nat (mkPiece piece (Some "blue"%string) (Some 9)) H1
                  eq_refl ltac:(discriminate)) as Hb.
    simpl in Ha, Hb. congruence.
  - destruct (Hmem 0%nat (mkPiece piece (Some "red"%string) (Some 1)) H0
                eq_refl ltac:(discriminate)) as [Ha _].
    destruct (Hmem 1%nat (mkPiece piece (Some "blue"%string) (Some 9)) H1
                eq_refl ltac:(discriminate)) as [Hb _].
    simpl in Ha, Hb. congruence.
Qed.

(** [red 5, blue 5, black 5] has no duplicate and its one candidate is a
    valid Set; [red 1, blue 9, black 3] has no duplicate and no valid meld,
    and nothing is enumerated. *)
Lemma candidates_valid_without_duplicates_witness :
  spec_valid_meld (tiles (OkeyILPSolver_init hand_set None None)) [0; 1; 2]%nat ∧
  _enumerate_melds (OkeyILPSolver_init hand_none None None) = [] ∧
  (∀ x, solve (OkeyILPSolver_init hand_none None None) (Return x) = Return []).
Proof.
  destruct (candidates_valid_without_duplicates hand_set None None
              hand_set_no_duplicates) as [Hvalid _].
  destruct (candidates_valid_without_duplicates hand_none None None
              hand_none_no_duplicates) as [_ Hempty].
  split.
  - apply (Hvalid ([0; 1; 2]%nat, 15)).
    apply (bool_decide_unpack _). vm_compute. exact I.
  - apply Hempty, hand_none_no_valid_meld.
Defined.
